(** * Move selection of the 2584 agents (agent.h)

    A shallow embedding of [agent.h]: the configuration parser of [agent],
    the seeding of [random_agent], the tile generator [rndenv] and the three
    move selectors of [player] together with the depth-limited search and the
    board evaluation behind the heuristic one.

    Conventions.
    - C++ [int] values (rewards, scores, opcodes, positions) are integers of
      [Z].  Signed overflow is undefined in C++, so the development speaks
      about runs in which none occurs.
    - [board::cell] values are naturals of [N]; the agents only compare them.
    - A method taking [board&] returns the final value of the referenced
      board next to its result.  A second embedding on an object store makes
      the copies and the aliasing explicit, and is proved to compute what
      the first one computes.
    - [board.h], [action.h] and the C++ standard library are not part of the
      sources.  Their types are modelled from the specification, their
      operations are the fields of the classes [BoardInterface] and
      [CxxStd]. *)

From stdpp Require Import gmap strings list.
From Equations Require Import Equations.
From Stdlib Require Import ZArith Lia.

Local Open Scope Z_scope.

(** ** The board (board.h) *)

(** Modelled from the spec: [board::cell], the level stored in one cell
    (0 = empty, otherwise a positive level), an unsigned integer. *)
Definition cell := N.

(** Modelled from the spec: the type [board] of board.h, "a fixed 4x4 grid of
    tile magnitudes", as four rows of four cells. *)
Record row := Row { c0 : cell; c1 : cell; c2 : cell; c3 : cell }.
Record board := Board { r0 : row; r1 : row; r2 : row; r3 : row }.

#[global] Instance row_eq_dec : EqDecision row.
Proof. solve_decision. Defined.
#[global] Instance board_eq_dec : EqDecision board.
Proof. solve_decision. Defined.

(** [board::reward], an [int]; the sentinel [-1] marks an illegal slide. *)
Definition reward := Z.

Definition row_at (r : row) (c : Z) : cell :=
  match c with
  | 0 => c0 r | 1 => c1 r | 2 => c2 r | 3 => c3 r
  | _ => 0%N
  end.

Definition tile (b : board) (r : Z) : row :=
  match r with
  | 0 => r0 b | 1 => r1 b | 2 => r2 b | 3 => r3 b
  | _ => Row 0%N 0%N 0%N 0%N
  end.

(** Modelled from the spec: [board::operator()(i)], the read access
    "read(position) -> level" on the row-major positions 0..15.  Positions
    outside 0..15 are outside the interface; the model reads 0 there. *)
Definition board_at (b : board) (i : Z) : cell := row_at (tile b (i / 4)) (i mod 4).

Definition row_set (r : row) (c : Z) (v : cell) : row :=
  match c with
  | 0 => Row v (c1 r) (c2 r) (c3 r)
  | 1 => Row (c0 r) v (c2 r) (c3 r)
  | 2 => Row (c0 r) (c1 r) v (c3 r)
  | 3 => Row (c0 r) (c1 r) (c2 r) v
  | _ => r
  end.

(** Modelled from the spec: the write access [b(i) = v] of board.h, which
    changes the one cell at position [i] and leaves the others alone. *)
Definition board_set (b : board) (i : Z) (v : cell) : board :=
  match i / 4 with
  | 0 => Board (row_set (r0 b) (i mod 4) v) (r1 b) (r2 b) (r3 b)
  | 1 => Board (r0 b) (row_set (r1 b) (i mod 4) v) (r2 b) (r3 b)
  | 2 => Board (r0 b) (r1 b) (row_set (r2 b) (i mod 4) v) (r3 b)
  | 3 => Board (r0 b) (r1 b) (r2 b) (row_set (r3 b) (i mod 4) v)
  | _ => b
  end.

(** Modelled from the spec: [board::rotate_left] of board.h, the "in-place
    90 degree rotation" of the Board Interface, here the counterclockwise
    quarter turn: the right column, read downwards, becomes the top row. *)
Definition rotate_left (b : board) : board :=
  Board (Row (c3 (r0 b)) (c3 (r1 b)) (c3 (r2 b)) (c3 (r3 b)))
        (Row (c2 (r0 b)) (c2 (r1 b)) (c2 (r2 b)) (c2 (r3 b)))
        (Row (c1 (r0 b)) (c1 (r1 b)) (c1 (r2 b)) (c1 (r3 b)))
        (Row (c0 (r0 b)) (c0 (r1 b)) (c0 (r2 b)) (c0 (r3 b))).

(** The operations of board.h whose bodies the agents never look into. *)
Class BoardInterface := {
  (** [board::slide(op)]: the board after the slide and its reward, or the
      sentinel [-1] when the slide is illegal. *)
  slide : board → Z → board * reward;
  (** [board::map_to_fibonacci(level)]: the score weight of a level. *)
  map_to_fibonacci : cell → Z
}.

(** The contract of the Board Interface on rewards: the sentinel [-1] or a
    real reward, which is never negative. *)
Definition reward_contract `{BoardInterface} : Prop :=
  ∀ b op, (slide b op).2 = -1 ∨ 0 ≤ (slide b op).2.

(** ** Actions (action.h) *)

(** Modelled from the spec: the type [action] of action.h, a "tagged value,
    one of Slide(direction), Place(position, level), None": [Slide op] is
    [action::slide(op)], [Place pos tile] is [action::place(pos, tile)] and
    [NoAction] is the default-constructed [action()]. *)
Inductive action :=
| Slide (op : Z)
| Place (pos : Z) (tile : cell)
| NoAction.

#[global] Instance action_eq_dec : EqDecision action.
Proof. solve_decision. Defined.

(** ** The C++ standard library pieces *)

Class CxxStd := {
  (** [std::default_random_engine] and its states. *)
  engine : Type;
  (** The default-constructed engine. *)
  default_engine : engine;
  (** [engine.seed(s)]. *)
  seed : engine → Z → engine;
  (** [std::shuffle(first, last, engine)] on an array held as a list. *)
  shuffle : list Z → engine → list Z * engine;
  (** [std::uniform_int_distribution<int>(lo, hi)(engine)]. *)
  uniform_int : Z → Z → engine → Z * engine;
  (** [int(std::stod(s))]; [None] when [std::stod] throws. *)
  stod : string → option Z
}.

(** What the standard promises of [std::shuffle] and of the distribution. *)
Definition shuffle_contract `{CxxStd} : Prop :=
  ∀ l e, (shuffle l e).1 ≡ₚ l.

Definition uniform_int_contract `{CxxStd} : Prop :=
  ∀ lo hi e, lo ≤ hi → lo ≤ (uniform_int lo hi e).1 ≤ hi.

(** ** Exceptions *)

(** The two failures the agents can raise: [std::out_of_range] from
    [meta.at(key)] on a missing key, and the failure of [std::stod] on a
    value that is not a number. *)
Inductive exn :=
| out_of_range (key : string)
| invalid_argument (value : string).

Inductive result (A : Type) :=
| Ok (a : A)
| Throw (e : exn).
Arguments Ok {A} a.
Arguments Throw {A} e.

Definition result_bind {A B} (r : result A) (k : A → result B) : result B :=
  match r with
  | Ok a => k a
  | Throw e => Throw e
  end.

Notation "x ←! r ; k" := (result_bind r (λ x, k))
  (at level 20, r at level 100, k at level 200, only parsing).

(** ** class agent: the configuration string *)

(** [isspace] in the "C" locale: space, and the control characters 9..13. *)
Definition isspace (c : Ascii.ascii) : bool :=
  let n := Ascii.nat_of_ascii c in
  ((n =? 32) || ((9 <=? n) && (n <=? 13)))%nat.

(** The loop [for (std::string pair; ss >> pair; )]: the maximal runs of
    characters that are not white space, in order.  [pair] is the run read
    so far. *)
Fixpoint extract (s : string) (pair : string) : list string :=
  match s with
  | EmptyString => match pair with EmptyString => [] | _ => [pair] end
  | String c s' =>
      if isspace c
      then match pair with
           | EmptyString => extract s' ""
           | _ => pair :: extract s' ""
           end
      else extract s' (pair +:+ String c "")
  end.

(** [pair.substr(0, pair.find('='))]: without a ['='], [find] is [npos] and
    the key is the whole pair. *)
Definition key_of (pair : string) : string :=
  match String.index 0 "=" pair with
  | Some n => String.substring 0 n pair
  | None => pair
  end.

(** [pair.substr(pair.find('=') + 1)]: without a ['='], [npos + 1] wraps
    around to 0 and the value is the whole pair. *)
Definition value_of (pair : string) : string :=
  match String.index 0 "=" pair with
  | Some n => String.substring (n + 1) (String.length pair - (n + 1)) pair
  | None => pair
  end.

Definition set_pair (meta : gmap string string) (pair : string) : gmap string string :=
  <[key_of pair := value_of pair]> meta.

(** [agent::agent(args)]: the map [meta] after construction. *)
Definition agent_ctor (args : string) : gmap string string :=
  foldl set_pair ∅ (extract ("name=unknown role=unknown " +:+ args) "").

(** [agent::property(key)], that is [meta.at(key)]. *)
Definition property (meta : gmap string string) (key : string) : result string :=
  match meta !! key with
  | Some v => Ok v
  | None => Throw (out_of_range key)
  end.

(** [agent::notify(msg)]. *)
Definition notify (meta : gmap string string) (msg : string) : gmap string string :=
  set_pair meta msg.

Section agents.
Context `{BoardInterface} `{CxxStd}.

(** ** class random_agent *)

Record random_agent := RandomAgent {
  meta : gmap string string;
  rng : engine
}.

(** [random_agent::random_agent(args)]: the engine is default-constructed
    and seeded only if [meta] has the key "seed". *)
Definition random_agent_ctor (args : string) : result random_agent :=
  let meta := agent_ctor args in
  match meta !! "seed" with
  | Some value =>
      match stod value with
      | Some s => Ok (RandomAgent meta (seed default_engine s))
      | None => Throw (invalid_argument value)
      end
  | None => Ok (RandomAgent meta default_engine)
  end.

(** ** class rndenv *)

Record rndenv := Rndenv {
  env_base : random_agent;
  space : list Z
}.

Definition rndenv_ctor (args : string) : result rndenv :=
  base ←! random_agent_ctor ("name=random role=environment " +:+ args);
  Ok (Rndenv base (seqZ 0 16)).

(** The loop of [rndenv::take_action] over the shuffled positions. *)
Fixpoint rndenv_loop (after : board) (positions : list Z) (e : engine) : action * engine :=
  match positions with
  | [] => (NoAction, e)
  | pos :: positions' =>
      if decide (board_at after pos ≠ 0%N) then rndenv_loop after positions' e
      else
        let '(draw, e') := uniform_int 0 9 e in
        let tile : cell := if decide (draw ≠ 0) then 1%N else 2%N in
        (Place pos tile, e')
  end.

(** [rndenv::take_action(after)]: the action and the environment after the
    call ([space] stays shuffled, the engine has advanced). *)
Definition rndenv_take_action (env : rndenv) (after : board) : action * rndenv :=
  let '(space', e) := shuffle (space env) (rng (env_base env)) in
  let '(a, e') := rndenv_loop after space' e in
  (a, Rndenv (RandomAgent (meta (env_base env)) e') space').

(** ** class player *)

Record player := Player {
  base : random_agent;
  opcode : list Z;
  tuples : list (list Z);
  play_type : string
}.

Definition player_ctor (args : string) : result player :=
  base ←! random_agent_ctor ("name=dummy role=player " +:+ args);
  Ok (Player base [0; 1; 2; 3] [[0; 1; 2; 3]] args).

(** [tuple[i]] on a [std::array<int, 4>] held as a list. *)
Definition tuple_at (tuple : list Z) (i : Z) : Z := nth (Z.to_nat i) tuple 0.

(** The loop of [cal_decreasing_score] over [i = 1 .. tuple.size() - 1],
    with the three locals it updates. *)
Fixpoint cal_decreasing_loop (tuple : list Z) (after : board) (indices : list Z)
    (is_decreasing is_increasing : bool) (score : Z) : Z :=
  match indices with
  | [] => if is_decreasing || is_increasing then score else 0
  | i :: indices' =>
      let score := score + map_to_fibonacci (board_at after (tuple_at tuple i)) in
      if decide (board_at after (tuple_at tuple i) = board_at after (tuple_at tuple (i - 1)))
      then 0
      else if decide (board_at after (tuple_at tuple (i - 1)) < board_at after (tuple_at tuple i))%N
      then cal_decreasing_loop tuple after indices' false is_increasing score
      else cal_decreasing_loop tuple after indices' is_decreasing false score
  end.

Definition cal_decreasing_score (tuple : list Z) (after : board) : Z :=
  cal_decreasing_loop tuple after (seqZ 1 (Z.of_nat (length tuple) - 1)) true true 0.

Definition cal_space_score (after : board) : Z :=
  let space_factor := 5 in
  let space_counter :=
    foldl (λ space_counter i,
             space_counter + (if decide (board_at after i = 0%N) then 1 else 0))
          0 (seqZ 0 16) in
  space_counter * space_factor.

(** [evaluate_board(board& after)]: the score, and [after] as the call
    leaves it (it is rotated in place four times per tuple). *)
Definition evaluate_board (p : player) (after : board) : Z * board :=
  let '(score, after) :=
    foldl (λ '(score, after) tuple,
             foldl (λ '(score, after) (_ : Z),
                      (score + cal_decreasing_score tuple after, rotate_left after))
                   (score, after) (seqZ 0 4))
          (0, after) (tuples p) in
  (score + cal_space_score after, after).

(** [tree_search(board& game, search_depth)]: the score, and [game] as the
    call leaves it. *)
Equations tree_search (p : player) (game : board) (search_depth : Z) : Z * board
    by wf (Z.to_nat search_depth) lt :=
  tree_search p game search_depth with Z_le_gt_dec search_depth 0 => {
    | left _ => evaluate_board p game
    | right _ =>
        (foldl (λ best_score op,
                  let '(after, reward) := slide game op in
                  let score :=
                    if decide (reward ≠ -1)
                    then reward + (tree_search p after (search_depth - 1)).1
                    else 0 in
                  Z.max best_score (score + reward))
               0 (opcode p),
         game) }.
Next Obligation. lia. Qed.

(** The loop of [random_action] over the shuffled opcodes. *)
Fixpoint random_action_loop (before : board) (ops : list Z) : action :=
  match ops with
  | [] => NoAction
  | op :: ops' =>
      let reward := (slide before op).2 in
      if decide (reward ≠ -1) then Slide op else random_action_loop before ops'
  end.

(** [random_action(before)]: the action and the player after the call
    ([opcode] stays shuffled, the engine has advanced). *)
Definition random_action (p : player) (before : board) : action * player :=
  let '(opcode', e) := shuffle (opcode p) (rng (base p)) in
  (random_action_loop before opcode',
   Player (RandomAgent (meta (base p)) e) opcode' (tuples p) (play_type p)).

(** The selectors end with [(best_op != -1) ? action::slide(best_op) : action()]. *)
Definition action_of_best (best_op : Z) : action :=
  if decide (best_op ≠ -1) then Slide best_op else NoAction.

(** One round of the loop of [greedy_action], on its locals [max_reward]
    and [best_op]. *)
Definition greedy_step (before : board) (locals : Z * Z) (op : Z) : Z * Z :=
  let '(max_reward, best_op) := locals in
  let reward := (slide before op).2 in
  if decide (reward ≠ -1 ∧ max_reward ≤ reward)
  then (reward, op)
  else (max_reward, best_op).

Definition greedy_action (p : player) (before : board) : action :=
  let '(max_reward, best_op) := foldl (greedy_step before) (0, -1) (opcode p) in
  action_of_best best_op.

(** One round of the loop of [heuristic_action], on its locals [max_score]
    and [best_op]; [tree_search(after)] runs with the default depth 1. *)
Definition heuristic_step (p : player) (before : board) (locals : Z * Z) (op : Z) : Z * Z :=
  let '(max_score, best_op) := locals in
  let '(after, reward) := slide before op in
  if decide (reward ≠ -1)
  then
    let critic := (tree_search p after 1).1 in
    if decide (max_score ≤ reward + critic)
    then (reward + critic, op)
    else (max_score, best_op)
  else (max_score, best_op).

Definition heuristic_action (p : player) (before : board) : action :=
  let '(max_score, best_op) := foldl (heuristic_step p before) (0, -1) (opcode p) in
  action_of_best best_op.

(** [player::take_action(before)]. *)
Definition take_action (p : player) (before : board) : action * player :=
  if decide (play_type p = "greedy") then (greedy_action p before, p)
  else if decide (play_type p = "heuristic") then (heuristic_action p before, p)
  else random_action p before.

End agents.

(** ** The object store: references, copies and aliasing

    The selectors receive [const board&] and work on copies; the search and
    the evaluation receive [board&] and the evaluation rotates its argument
    in place.  To speak about which object a write lands on, the board
    objects live in a store and a reference is an index into it.  A copy
    construction ([board after = game], the temporary [board(before)])
    allocates a fresh object; objects are never reused. *)

Abbreviation store := (list board).
Abbreviation ref := nat.

(** A computation on the store; [None] is the use of a dangling reference. *)
Definition M (A : Type) : Type := store → option (A * store).

Definition ret {A} (a : A) : M A := λ h, Some (a, h).

Definition bind {A B} (m : M A) (k : A → M B) : M B :=
  λ h, match m h with
       | Some (a, h') => k a h'
       | None => None
       end.

Notation "'let!' x ':=' m 'in' k" := (bind m (λ x, k))
  (at level 10, x name, m at level 100, k at level 200, only parsing).
Notation "'do!' m 'in' k" := (bind m (λ _, k))
  (at level 10, m at level 100, k at level 200, only parsing).

(** Dereference. *)
Definition deref (r : ref) : M board :=
  λ h, match h !! r with
       | Some b => Some (b, h)
       | None => None
       end.

(** Assignment through a reference. *)
Definition assign (r : ref) (b : board) : M unit :=
  λ h, match h !! r with
       | Some _ => Some (tt, <[r := b]> h)
       | None => None
       end.

(** Copy construction: a fresh object holding the value behind [r]. *)
Definition copy (r : ref) : M ref :=
  λ h, match h !! r with
       | Some b => Some (length h, h ++ [b])
       | None => None
       end.

(** A monadic left fold, for the [for] loops. *)
Fixpoint foldM {A B} (f : A → B → M A) (a : A) (l : list B) : M A :=
  match l with
  | [] => ret a
  | x :: l' => let! a' := f a x in foldM f a' l'
  end.

Section store_agents.
Context `{BoardInterface} `{CxxStd}.

(** The read access through a reference. *)
Definition at_ref (r : ref) (i : Z) : M cell :=
  let! b := deref r in ret (board_at b i).

(** [r->slide(op)]: the object is replaced by the board after the slide. *)
Definition slide_ref (r : ref) (op : Z) : M reward :=
  let! b := deref r in
  do! assign r (slide b op).1 in
  ret (slide b op).2.

(** [r->rotate_left()]. *)
Definition rotate_left_ref (r : ref) : M unit :=
  let! b := deref r in assign r (rotate_left b).

Fixpoint cal_decreasing_loop_ref (tuple : list Z) (after : ref) (indices : list Z)
    (is_decreasing is_increasing : bool) (score : Z) : M Z :=
  match indices with
  | [] => ret (if is_decreasing || is_increasing then score else 0)
  | i :: indices' =>
      let! cur := at_ref after (tuple_at tuple i) in
      let score := score + map_to_fibonacci cur in
      let! prev := at_ref after (tuple_at tuple (i - 1)) in
      if decide (cur = prev) then ret 0
      else if decide (prev < cur)%N
      then cal_decreasing_loop_ref tuple after indices' false is_increasing score
      else cal_decreasing_loop_ref tuple after indices' is_decreasing false score
  end.

Definition cal_decreasing_score_ref (tuple : list Z) (after : ref) : M Z :=
  cal_decreasing_loop_ref tuple after (seqZ 1 (Z.of_nat (length tuple) - 1)) true true 0.

Definition cal_space_score_ref (after : ref) : M Z :=
  let space_factor := 5 in
  let! space_counter :=
    foldM (λ space_counter i,
             let! c := at_ref after i in
             ret (space_counter + (if decide (c = 0%N) then 1 else 0)))
          0 (seqZ 0 16) in
  ret (space_counter * space_factor).

Definition evaluate_board_ref (p : player) (after : ref) : M Z :=
  let! score :=
    foldM (λ score tuple,
             foldM (λ score (_ : Z),
                      let! s := cal_decreasing_score_ref tuple after in
                      do! rotate_left_ref after in
                      ret (score + s))
                   score (seqZ 0 4))
          0 (tuples p) in
  let! s := cal_space_score_ref after in
  ret (score + s).

Equations tree_search_ref (p : player) (game : ref) (search_depth : Z) : M Z
    by wf (Z.to_nat search_depth) lt :=
  tree_search_ref p game search_depth with Z_le_gt_dec search_depth 0 => {
    | left _ => evaluate_board_ref p game
    | right _ =>
        foldM (λ best_score op,
                 let! after := copy game in
                 let! reward := slide_ref after op in
                 let! score :=
                   (if decide (reward ≠ -1)
                    then let! s := tree_search_ref p after (search_depth - 1) in ret (reward + s)
                    else ret 0) in
                 ret (Z.max best_score (score + reward)))
              0 (opcode p) }.
Next Obligation. lia. Qed.

Fixpoint random_action_loop_ref (before : ref) (ops : list Z) : M action :=
  match ops with
  | [] => ret NoAction
  | op :: ops' =>
      let! tmp := copy before in
      let! reward := slide_ref tmp op in
      if decide (reward ≠ -1) then ret (Slide op) else random_action_loop_ref before ops'
  end.

Definition random_action_ref (p : player) (before : ref) : M (action * player) :=
  let '(opcode', e) := shuffle (opcode p) (rng (base p)) in
  let! a := random_action_loop_ref before opcode' in
  ret (a, Player (RandomAgent (meta (base p)) e) opcode' (tuples p) (play_type p)).

Definition greedy_action_ref (p : player) (before : ref) : M action :=
  let! st :=
    foldM (λ '(max_reward, best_op) op,
             let! tmp := copy before in
             let! reward := slide_ref tmp op in
             ret (if decide (reward ≠ -1 ∧ max_reward ≤ reward)
                  then (reward, op)
                  else (max_reward, best_op)))
          (0, -1) (opcode p) in
  ret (action_of_best st.2).

Definition heuristic_action_ref (p : player) (before : ref) : M action :=
  let! st :=
    foldM (λ '(max_score, best_op) op,
             let! after := copy before in
             let! reward := slide_ref after op in
             if decide (reward ≠ -1)
             then
               let! critic := tree_search_ref p after 1 in
               ret (if decide (max_score ≤ reward + critic)
                    then (reward + critic, op)
                    else (max_score, best_op))
             else ret (max_score, best_op))
          (0, -1) (opcode p) in
  ret (action_of_best st.2).

Definition take_action_ref (p : player) (before : ref) : M (action * player) :=
  if decide (play_type p = "greedy")
  then let! a := greedy_action_ref p before in ret (a, p)
  else if decide (play_type p = "heuristic")
  then let! a := heuristic_action_ref p before in ret (a, p)
  else random_action_ref p before.

End store_agents.

(** ** A Board Interface and a standard library for the examples *)

(** Modelled from the spec: [board::map_to_fibonacci] of board.h, the "fixed
    increasing nonlinear mapping" of a level to its score, "Fibonacci-like":
    0, 1, 2, 3, 5, 8, 13, ... for the levels 0, 1, 2, ... *)
Fixpoint fibonacci_pair (n : nat) : Z * Z :=
  match n with
  | O => (1, 2)
  | S n' => let '(a, b) := fibonacci_pair n' in (b, a + b)
  end.

Definition fibonacci (level : cell) : Z :=
  match level with
  | 0%N => 0
  | _ => (fibonacci_pair (N.to_nat level - 1)).1
  end.

(** Two tiles of 2584 merge when their levels are consecutive, or both 1. *)
Definition mergeable (a b : cell) : Prop :=
  ((a = 1 ∧ b = 1) ∨ a + 1 = b ∨ b + 1 = a)%N.

#[global] Instance mergeable_dec a b : Decision (mergeable a b).
Proof. unfold mergeable. apply _. Defined.

(** One line slid towards its head: the tiles left over, without the empty
    cells behind them, and the score of the merges.  [hold] is the tile that
    may still merge with the next one. *)
Fixpoint slide_cells (cells : list cell) (hold : cell) : list cell * Z :=
  match cells with
  | [] => (if decide (hold = 0%N) then [] else [hold], 0)
  | t :: cells' =>
      if decide (t = 0%N) then slide_cells cells' hold
      else if decide (hold = 0%N) then slide_cells cells' t
      else if decide (mergeable t hold)
      then let merged := (N.max t hold + 1)%N in
           let '(out, score) := slide_cells cells' 0%N in
           (merged :: out, fibonacci merged + score)
      else let '(out, score) := slide_cells cells' t in
           (hold :: out, score)
  end.

Definition slide_row (r : row) : row * Z :=
  let '(out, score) := slide_cells [c0 r; c1 r; c2 r; c3 r] 0%N in
  (Row (nth 0 out 0%N) (nth 1 out 0%N) (nth 2 out 0%N) (nth 3 out 0%N), score).

Definition transpose (b : board) : board :=
  Board (Row (c0 (r0 b)) (c0 (r1 b)) (c0 (r2 b)) (c0 (r3 b)))
        (Row (c1 (r0 b)) (c1 (r1 b)) (c1 (r2 b)) (c1 (r3 b)))
        (Row (c2 (r0 b)) (c2 (r1 b)) (c2 (r2 b)) (c2 (r3 b)))
        (Row (c3 (r0 b)) (c3 (r1 b)) (c3 (r2 b)) (c3 (r3 b))).

Definition reflect_row (r : row) : row := Row (c3 r) (c2 r) (c1 r) (c0 r).

Definition reflect_horizontal (b : board) : board :=
  Board (reflect_row (r0 b)) (reflect_row (r1 b)) (reflect_row (r2 b)) (reflect_row (r3 b)).

Definition slide_left (b : board) : board * reward :=
  let '(r0', s0) := slide_row (r0 b) in
  let '(r1', s1) := slide_row (r1 b) in
  let '(r2', s2) := slide_row (r2 b) in
  let '(r3', s3) := slide_row (r3 b) in
  let b' := Board r0' r1' r2' r3' in
  (b', if decide (b' = b) then -1 else s0 + s1 + s2 + s3).

Definition slide_right (b : board) : board * reward :=
  let '(b', r) := slide_left (reflect_horizontal b) in (reflect_horizontal b', r).

Definition slide_up (b : board) : board * reward :=
  let '(b', r) := slide_left (transpose b) in (transpose b', r).

Definition slide_down (b : board) : board * reward :=
  let '(b', r) := slide_right (transpose b) in (transpose b', r).

(** Modelled from the spec: [board::slide] of board.h, "a board-wide move in
    one of 4 directions that shifts and merges tiles", whose reward is "the
    score gained from merges" and which reports [-1] when nothing changes.
    The opcodes 0, 1, 2, 3 are up, right, down, left; the merge rule is the
    one of 2584. *)
Definition slide_2584 (b : board) (op : Z) : board * reward :=
  match Z.land op 3 with
  | 0 => slide_up b
  | 1 => slide_right b
  | 2 => slide_down b
  | _ => slide_left b
  end.

Definition board_2584 : BoardInterface :=
  {| slide := slide_2584; map_to_fibonacci := fibonacci |}.

(** Decimal digits only, for [stod] in the examples. *)
Fixpoint decimal (s : string) (value : option Z) : option Z :=
  match s with
  | EmptyString => value
  | String c s' =>
      let n := Z.of_nat (Ascii.nat_of_ascii c) in
      if decide (48 ≤ n ≤ 57)
      then decimal s' (Some (10 * default 0 value + (n - 48)))
      else None
  end.

(** A deterministic stand-in for the standard library: the engine replays a
    given sequence of raw draws.  A shuffle uses one raw draw to rotate the
    array, the distribution reduces one raw draw into its range. *)
Definition tape_std : CxxStd :=
  {| engine := list Z;
     default_engine := [];
     seed := λ _ s, [s];
     shuffle := λ l e,
       match e with
       | [] => (l, [])
       | x :: e' => (rotate (Z.to_nat x) l, e')
       end;
     uniform_int := λ lo hi e,
       match e with
       | [] => (lo, [])
       | x :: e' => (lo + x `mod` (hi - lo + 1), e')
       end;
     stod := λ s, decimal s None |}.

(** ** Notions used by the properties *)

Section notions.
Context `{BoardInterface} `{CxxStd}.

(** The four opcodes, in the order the constructor of [player] lists them. *)
Definition directions : list Z := [0; 1; 2; 3].

(** A direction is legal when its slide does not report the sentinel. *)
Definition legal (b : board) (op : Z) : Prop := (slide b op).2 ≠ -1.

(** The player and the environment as their constructors leave them when the
    configuration has no seed. *)
Definition unseeded_player (args : string) : player :=
  Player (RandomAgent (agent_ctor ("name=dummy role=player " +:+ args)) default_engine)
         [0; 1; 2; 3] [[0; 1; 2; 3]] args.

Definition unseeded_rndenv (args : string) : rndenv :=
  Rndenv (RandomAgent (agent_ctor ("name=random role=environment " +:+ args)) default_engine)
         (seqZ 0 16).

(** One step of the counting loop of [cal_space_score]. *)
Definition space_count (b : board) (space_counter i : Z) : Z :=
  space_counter + (if decide (board_at b i = 0%N) then 1 else 0).

(** The score [cal_decreasing_score] gives to a line of four cells: the
    weights of its last three cells if it is strictly monotonic, else 0. *)
Definition run_score (r : row) : Z :=
  if decide ((c0 r < c1 r ∧ c1 r < c2 r ∧ c2 r < c3 r) ∨
             (c3 r < c2 r ∧ c2 r < c1 r ∧ c1 r < c0 r))%N
  then map_to_fibonacci (c1 r) + map_to_fibonacci (c2 r) + map_to_fibonacci (c3 r)
  else 0.

(** The scoring line 0, 1, 2, 3 as read after [k] rotations of the board. *)
Definition scoring_line (b : board) (k : nat) : list cell :=
  board_at (Nat.iter k rotate_left b) <$> [0; 1; 2; 3].

Fixpoint strictly_increasing (l : list cell) : Prop :=
  match l with
  | x :: (y :: _) as l' => (x < y)%N ∧ strictly_increasing l'
  | _ => True
  end.

Fixpoint strictly_decreasing (l : list cell) : Prop :=
  match l with
  | x :: (y :: _) as l' => (y < x)%N ∧ strictly_decreasing l'
  | _ => True
  end.

Definition strictly_monotonic (l : list cell) : Prop :=
  strictly_increasing l ∨ strictly_decreasing l.

Definition no_empty_cell (b : board) : Prop :=
  ∀ i, 0 ≤ i < 16 → board_at b i ≠ 0%N.

Definition has_empty_cell (b : board) : Prop :=
  ∃ i, 0 ≤ i < 16 ∧ board_at b i = 0%N.

(** What the loop of [greedy_action] has established after the opcodes
    [ops]: no legal opcode yet, or [best_op] is the last of the legal
    opcodes of largest reward and [max_reward] is that reward. *)
Definition greedy_inv (b : board) (ops : list Z) (st : Z * Z) : Prop :=
  (st.2 = -1 ∧ st.1 = 0 ∧ ∀ op, op ∈ ops → ¬ legal b op) ∨
  (∃ i : nat, ops !! i = Some st.2 ∧ legal b st.2 ∧ st.1 = (slide b st.2).2 ∧
     ∀ (j : nat) op, ops !! j = Some op → legal b op →
       (slide b op).2 ≤ st.1 ∧ ((slide b op).2 = st.1 → (j ≤ i)%nat)).

(** What the loops of the greedy and of the heuristic selector share: the
    running maximum is not negative, and [best_op] is [-1] with no legal
    opcode seen, or a legal opcode among those seen. *)
Definition selector_inv (b : board) (ops : list Z) (st : Z * Z) : Prop :=
  0 ≤ st.1 ∧
  ((st.2 = -1 ∧ st.1 = 0 ∧ ∀ op, op ∈ ops → ¬ legal b op) ∨
   (st.2 ∈ ops ∧ legal b st.2)).

(** The two tiles the environment places. *)
Definition low_tile : cell := 1%N.
Definition high_tile : cell := 2%N.

Definition empty_at (after : board) (pos : Z) : Prop := board_at after pos = 0%N.

#[global] Instance empty_at_dec after pos : Decision (empty_at after pos).
Proof. unfold empty_at. apply _. Defined.

(** The placement of [rndenv::take_action] as the specification words it:
    on the first empty cell of the shuffled order, the low tile exactly for
    the draws 0..8 and the high tile exactly for the draw 9. *)
Definition placement_as_specified (env : rndenv) (after : board) : Prop :=
  let '(space', e) := shuffle (space env) (rng (env_base env)) in
  let draw := (uniform_int 0 9 e).1 in
  ∃ k pos tile,
    (rndenv_take_action env after).1 = Place pos tile ∧
    list_find (empty_at after) space' = Some (k, pos) ∧
    (tile = low_tile ↔ 0 ≤ draw ≤ 8) ∧
    (tile = high_tile ↔ draw = 9).

(** A configuration string without a "seed" key: none of its pairs has the
    key "seed". *)
Definition no_seed_key (args : string) : Prop :=
  Forall (λ pair, key_of pair ≠ "seed") (extract args "").

(** The score of a branch of the search as the specification words it: the
    reward plus the search of the board after the slide for a legal
    direction, 0 for an illegal one. *)
Definition branch_score_as_specified (p : player) (game : board) (search_depth : Z)
    (op : Z) : Z :=
  let '(after, reward) := slide game op in
  if decide (reward ≠ -1)
  then reward + (tree_search p after (search_depth - 1)).1
  else 0.

(** The search as the specification words it: the maximum of the branch
    scores of the four directions. *)
Definition tree_search_as_specified (p : player) (game : board) (search_depth : Z) : Z :=
  Z.max (Z.max (Z.max (branch_score_as_specified p game search_depth 0)
                      (branch_score_as_specified p game search_depth 1))
               (branch_score_as_specified p game search_depth 2))
        (branch_score_as_specified p game search_depth 3).

(** The score of a branch as [tree_search] computes it: for a legal
    direction [score + reward] with [score = reward + tree_search(...)], for
    an illegal one [0 + reward] with the sentinel for [reward]. *)
Definition branch_score_as_computed (p : player) (game : board) (search_depth : Z)
    (op : Z) : Z :=
  let '(after, reward) := slide game op in
  if decide (reward ≠ -1)
  then 2 * reward + (tree_search p after (search_depth - 1)).1
  else -1.

End notions.

(** Boards for the examples, row by row. *)
Definition board_of (a b c d e f g h i j k l m n o p : cell) : board :=
  Board (Row a b c d) (Row e f g h) (Row i j k l) (Row m n o p).
Arguments board_of (a b c d e f g h i j k l m n o p)%_N.

(** Two level-1 tiles side by side in the top row, nothing else. *)
Definition two_ones : board := board_of 1 1 0 0  0 0 0 0  0 0 0 0  0 0 0 0.

(** A full board whose four border lines are not monotonic. *)
Definition scrambled : board := board_of 1 3 2 4  3 1 4 2  2 4 1 3  4 2 3 1.

(** A full board whose top row descends strictly. *)
Definition descending_top : board := board_of 4 3 2 1  5 5 5 5  5 5 5 5  5 5 5 5.

Definition empty_board : board := board_of 0 0 0 0  0 0 0 0  0 0 0 0  0 0 0 0.

(** An environment whose engine replays the raw draws [raw]. *)
Definition tape_rndenv (raw : list Z) : @rndenv tape_std :=
  @Rndenv tape_std
    (@RandomAgent tape_std (agent_ctor "name=random role=environment ") raw)
    (seqZ 0 16).

(** ** More of agent.h *)

(** [agent::name()] and [agent::role()]: [property("name")] and
    [property("role")]. *)
Definition name (meta : gmap string string) : result string := property meta "name".
Definition role (meta : gmap string string) : result string := property meta "role".

(** [(uint32_t)z] for an [int] [z]. *)
Definition to_uint32 (z : Z) : N := Z.to_N (z `mod` 2 ^ 32).

(** The conversion of a [uint32_t] to [int], modulo 2^32 into the range of
    [int]. *)
Definition to_int (n : N) : Z :=
  let z := Z.of_N n `mod` 2 ^ 32 in
  if decide (z < 2 ^ 31) then z else z - 2 ^ 32.

(** One round of the loop of [cal_maxtile_score], on its locals [max_tile]
    and [pos]. *)
Definition maxtile_step (after : board) (locals : Z * Z) (i : Z) : Z * Z :=
  let '(max_tile, pos) := locals in
  if decide (to_uint32 max_tile < board_at after i)%N
  then (to_int (board_at after i), i)
  else (max_tile, pos).

Definition cal_maxtile_score (after : board) : Z :=
  let '(max_tile, pos) := foldl (maxtile_step after) (0, -1) (seqZ 0 16) in
  if decide (pos = 0 ∨ pos = 3 ∨ pos = 12 ∨ pos = 15) then max_tile else 0.

Section more_notions.
Context `{BoardInterface} `{CxxStd}.

(** The player after a run of [take_action] calls, one per board. *)
Definition play (p : player) (boards : list board) : player :=
  foldl (λ p before, (take_action p before).2) p boards.

#[global] Instance legal_dec b op : Decision (legal b op).
Proof. unfold legal. apply _. Defined.

(** The score [heuristic_action] gives to a legal direction: the reward of
    the slide plus the search of depth 1 from the board after it. *)
Definition heuristic_score (p : player) (b : board) (op : Z) : Z :=
  (slide b op).2 + (tree_search p (slide b op).1 1).1.

(** What the loop of [heuristic_action] has established after the opcodes
    [ops]: as [greedy_inv], with the heuristic score for the reward. *)
Definition heuristic_inv (p : player) (b : board) (ops : list Z) (st : Z * Z) : Prop :=
  (st.2 = -1 ∧ st.1 = 0 ∧ ∀ op, op ∈ ops → ¬ legal b op) ∨
  (∃ i : nat, ops !! i = Some st.2 ∧ legal b st.2 ∧ st.1 = heuristic_score p b st.2 ∧
     ∀ (j : nat) op, ops !! j = Some op → legal b op →
       heuristic_score p b op ≤ st.1 ∧ (heuristic_score p b op = st.1 → (j ≤ i)%nat)).

(** The score of a tuple summed over the four rotations of the board. *)
Definition rotations_score (tuple : list Z) (b : board) : Z :=
  cal_decreasing_score tuple b
  + cal_decreasing_score tuple (rotate_left b)
  + cal_decreasing_score tuple (rotate_left (rotate_left b))
  + cal_decreasing_score tuple (rotate_left (rotate_left (rotate_left b))).

End more_notions.

(** Every character of a string satisfies [P]. *)
Fixpoint string_forall (P : Ascii.ascii → Prop) (s : string) : Prop :=
  match s with
  | EmptyString => True
  | String c s' => P c ∧ string_forall P s'
  end.

(** No white space; no ['=']; a pair as [ss >> pair] reads it. *)
Definition no_space (s : string) : Prop := string_forall (λ c, isspace c = false) s.
Definition equals_sign : Ascii.ascii := Ascii.ascii_of_nat 61.
Definition no_equals (s : string) : Prop := string_forall (λ c, c ≠ equals_sign) s.
Definition is_pair (s : string) : Prop := s ≠ "" ∧ no_space s.

(** The pairs written one after the other, a space after each. *)
Fixpoint join_pairs (pairs : list string) : string :=
  match pairs with
  | [] => ""
  | word :: pairs' => word +:+ " " +:+ join_pairs pairs'
  end.

(** The pairs with a given key, in their order. *)
Definition pairs_with_key (key : string) (pairs : list string) : list string :=
  filter (λ pair, key_of pair = key) pairs.

(** The value the pairs give to a key: that of the last pair with the key. *)
Definition last_value (key : string) (pairs : list string) : option string :=
  value_of <$> last (pairs_with_key key pairs).

(** Every cell is below 2^31, so that it converts to [int] unchanged. *)
Definition small_cells (b : board) : Prop :=
  ∀ i, 0 ≤ i < 16 → (board_at b i < 2 ^ 31)%N.

(** What the loop of [cal_maxtile_score] has established after the
    positions [l]: all cells empty so far, or [pos] is the first position of
    the largest level and [max_tile] is that level. *)
Definition maxtile_inv (b : board) (l : list Z) (st : Z * Z) : Prop :=
  (st.1 = 0 ∧ st.2 = -1 ∧ ∀ i, i ∈ l → board_at b i = 0%N) ∨
  (∃ k : nat, l !! k = Some st.2 ∧ st.1 = Z.of_N (board_at b st.2) ∧ 0 < st.1 ∧
     (∀ (j : nat) i, l !! j = Some i → (board_at b i ≤ board_at b st.2)%N) ∧
     (∀ (j : nat) i, l !! j = Some i → (j < k)%nat → (board_at b i < board_at b st.2)%N)).

(** A full board on which no two neighbours merge: no slide is legal. *)
Definition stuck : board := board_of 1 3 1 3  3 1 3 1  1 3 1 3  3 1 3 1.

(** A player whose opcodes were shuffled to 3, 2, 1, 0. *)
Definition reversed_player : @player tape_std :=
  @Player tape_std (@RandomAgent tape_std (agent_ctor "name=dummy role=player ") [])
          [3; 2; 1; 0] [[0; 1; 2; 3]] "".


(** * Properties *)

(** ** The board *)

Lemma rotate_left_4 b : rotate_left (rotate_left (rotate_left (rotate_left b))) = b.
Proof. by destruct b as [[] [] [] []]. Qed.

Lemma position_cases pos :
  0 ≤ pos < 16 → pos ∈ [0; 1; 2; 3; 4; 5; 6; 7; 8; 9; 10; 11; 12; 13; 14; 15].
Proof. intros Hpos. change (pos ∈ seqZ 0 16). apply elem_of_seqZ. lia. Qed.

Ltac each_position H :=
  apply position_cases in H;
  repeat (apply elem_of_cons in H as [->|H]);
  [..|by apply elem_of_nil in H].

Lemma board_at_set_eq b pos v :
  0 ≤ pos < 16 → board_at (board_set b pos v) pos = v.
Proof. intros Hpos. each_position Hpos; reflexivity. Qed.

Lemma board_at_set_ne b pos v i :
  0 ≤ pos < 16 → 0 ≤ i < 16 → i ≠ pos → board_at (board_set b pos v) i = board_at b i.
Proof.
  intros Hpos Hi Hne. each_position Hpos; each_position Hi; try done; reflexivity.
Qed.

(** The four inner cells are on no border line, whatever the rotation. *)
Lemma top_rows_set_inner b pos v :
  pos ∈ [5; 6; 9; 10] →
  r0 (board_set b pos v) = r0 b ∧
  r0 (rotate_left (board_set b pos v)) = r0 (rotate_left b) ∧
  r0 (rotate_left (rotate_left (board_set b pos v))) = r0 (rotate_left (rotate_left b)) ∧
  r0 (rotate_left (rotate_left (rotate_left (board_set b pos v)))) =
    r0 (rotate_left (rotate_left (rotate_left b))).
Proof.
  intros Hpos.
  repeat (apply elem_of_cons in Hpos as [->|Hpos]); [..|by apply elem_of_nil in Hpos];
    by destruct b as [[] [] [] []].
Qed.

(** ** The evaluation *)

Section evaluation.
Context `{BoardInterface} `{CxxStd}.

Lemma cal_decreasing_score_top b : cal_decreasing_score [0; 1; 2; 3] b = run_score (r0 b).
Proof.
  unfold cal_decreasing_score, run_score.
  change (seqZ 1 (Z.of_nat (length [0; 1; 2; 3]) - 1)) with [1; 2; 3].
  cbn [cal_decreasing_loop].
  change (board_at b (tuple_at [0; 1; 2; 3] (1 - 1))) with (c0 (r0 b)).
  change (board_at b (tuple_at [0; 1; 2; 3] 1)) with (c1 (r0 b)).
  change (board_at b (tuple_at [0; 1; 2; 3] (2 - 1))) with (c1 (r0 b)).
  change (board_at b (tuple_at [0; 1; 2; 3] 2)) with (c2 (r0 b)).
  change (board_at b (tuple_at [0; 1; 2; 3] (3 - 1))) with (c2 (r0 b)).
  change (board_at b (tuple_at [0; 1; 2; 3] 3)) with (c3 (r0 b)).
  repeat case_decide; simpl; lia.
Qed.

(** The loop [for (int i = 0; i < 4; i++)] adds the score of the tuple on the
    four rotations and hands the board back as it received it. *)
Lemma rotation_loop tuple score b :
  foldl (λ '(score, after) (_ : Z),
           (score + cal_decreasing_score tuple after, rotate_left after))
        (score, b) (seqZ 0 4) =
  (score + cal_decreasing_score tuple b
   + cal_decreasing_score tuple (rotate_left b)
   + cal_decreasing_score tuple (rotate_left (rotate_left b))
   + cal_decreasing_score tuple (rotate_left (rotate_left (rotate_left b))), b).
Proof.
  change (seqZ 0 4) with [0; 1; 2; 3]. cbn [foldl]. by rewrite rotate_left_4.
Qed.

Lemma tuples_loop_board (ts : list (list Z)) score b :
  (foldl (λ '(score, after) tuple,
            foldl (λ '(score, after) (_ : Z),
                     (score + cal_decreasing_score tuple after, rotate_left after))
                  (score, after) (seqZ 0 4))
         (score, b) ts).2 = b.
Proof.
  revert score. induction ts as [|t ts IH]; intros score; [done|].
  cbn [foldl]. rewrite rotation_loop. apply IH.
Qed.

Lemma evaluate_board_single p t b :
  tuples p = [t] →
  (evaluate_board p b).1 =
    cal_decreasing_score t b
    + cal_decreasing_score t (rotate_left b)
    + cal_decreasing_score t (rotate_left (rotate_left b))
    + cal_decreasing_score t (rotate_left (rotate_left (rotate_left b)))
    + cal_space_score b.
Proof.
  intros Ht. unfold evaluate_board. rewrite Ht. cbn [foldl].
  rewrite rotation_loop. simpl. done.
Qed.

Lemma run_score_not_monotonic b k :
  ¬ strictly_monotonic (scoring_line b k) → run_score (r0 (Nat.iter k rotate_left b)) = 0.
Proof.
  unfold strictly_monotonic, scoring_line, run_score. intros Hn.
  case_decide as Hd; [|done]. exfalso. apply Hn.
  set (b' := Nat.iter k rotate_left b) in *.
  change (board_at b' <$> [0; 1; 2; 3])
    with [c0 (r0 b'); c1 (r0 b'); c2 (r0 b'); c3 (r0 b')].
  simpl. tauto.
Qed.

Lemma cal_space_score_eq b :
  cal_space_score b = foldl (space_count b) 0 (seqZ 0 16) * 5.
Proof. reflexivity. Qed.

Lemma cal_space_score_full b : no_empty_cell b → cal_space_score b = 0.
Proof.
  intros Hb. rewrite cal_space_score_eq.
  change (seqZ 0 16) with [0; 1; 2; 3; 4; 5; 6; 7; 8; 9; 10; 11; 12; 13; 14; 15].
  cbn [foldl]. unfold space_count.
  rewrite !decide_False; [done|..]; apply Hb; lia.
Qed.

Lemma space_count_shift b (l : list Z) a k :
  foldl (space_count b) (a + k) l = foldl (space_count b) a l + k.
Proof.
  revert a. induction l as [|i l IH]; intros a; cbn [foldl]; [done|].
  unfold space_count at 2 4. rewrite <- IH. f_equal. lia.
Qed.

Lemma space_count_frame b pos v (l : list Z) a :
  0 ≤ pos < 16 → Forall (λ i, 0 ≤ i < 16) l → pos ∉ l →
  foldl (space_count (board_set b pos v)) a l = foldl (space_count b) a l.
Proof.
  intros Hpos Hl. revert a. induction Hl as [|i l Hi Hl IH]; intros a Hnot; [done|].
  apply not_elem_of_cons in Hnot as [Hne Hnot].
  cbn [foldl]. unfold space_count at 2 4. rewrite board_at_set_ne by done. by apply IH.
Qed.

Lemma space_count_set b pos (l : list Z) a :
  0 ≤ pos < 16 → board_at b pos ≠ 0%N →
  Forall (λ i, 0 ≤ i < 16) l → NoDup l → pos ∈ l →
  foldl (space_count (board_set b pos 0%N)) a l = foldl (space_count b) a l + 1.
Proof.
  intros Hpos Hne Hl. revert a. induction Hl as [|i l Hi Hl IH]; intros a Hnd Hin.
  - by apply elem_of_nil in Hin.
  - apply NoDup_cons in Hnd as [Hnot Hnd]. cbn [foldl]. unfold space_count at 2 4.
    destruct (decide (i = pos)) as [->|Hip].
    + rewrite board_at_set_eq, decide_True, (decide_False (P := board_at b pos = 0%N)) by done.
      rewrite space_count_frame, !space_count_shift by done. lia.
    + rewrite board_at_set_ne by done. apply IH; [done|].
      apply elem_of_cons in Hin as [?|?]; [congruence|done].
Qed.

Lemma cal_space_score_set b pos :
  0 ≤ pos < 16 → board_at b pos ≠ 0%N →
  cal_space_score (board_set b pos 0%N) = cal_space_score b + 5.
Proof.
  intros Hpos Hne. rewrite !cal_space_score_eq.
  rewrite (space_count_set b pos);
    [lia|done..| |apply NoDup_seqZ|apply elem_of_seqZ; lia].
  apply Forall_forall. intros i Hi%elem_of_seqZ. lia.
Qed.

(** C10. [evaluate_board] hands its board argument back as it received it:
    each tuple rotates it left four times, which is a full turn. *)
Theorem evaluate_board_restores_board p b : (evaluate_board p b).2 = b.
Proof.
  unfold evaluate_board.
  pose proof (tuples_loop_board (tuples p) 0 b) as Hb.
  destruct (foldl _ _ _) as [score after]. simpl in *. done.
Qed.

(** C6. On a board without an empty cell on which the scoring line is not
    strictly monotonic under any of the four rotations (two equal
    neighbours included), the evaluation is exactly 0. *)
Theorem evaluate_full_not_monotonic p b :
  tuples p = [[0; 1; 2; 3]] →
  no_empty_cell b →
  (∀ k, (k < 4)%nat → ¬ strictly_monotonic (scoring_line b k)) →
  (evaluate_board p b).1 = 0.
Proof.
  intros Ht Hb Hl. rewrite (evaluate_board_single p _ b Ht), !cal_decreasing_score_top.
  rewrite cal_space_score_full by done.
  pose proof (run_score_not_monotonic b 0 (Hl 0%nat ltac:(lia))) as E0.
  pose proof (run_score_not_monotonic b 1 (Hl 1%nat ltac:(lia))) as E1.
  pose proof (run_score_not_monotonic b 2 (Hl 2%nat ltac:(lia))) as E2.
  pose proof (run_score_not_monotonic b 3 (Hl 3%nat ltac:(lia))) as E3.
  unfold Nat.iter, nat_rect in E0, E1, E2, E3. rewrite E0, E1, E2, E3. done.
Qed.

(** C5, amended. Emptying a non-empty cell raises the space bonus by exactly
    5, and raises the evaluation by exactly 5 when the cell is one of the
    four inner cells 5, 6, 9, 10, which no scoring line reads. *)
Theorem evaluate_set_empty p b pos :
  tuples p = [[0; 1; 2; 3]] → 0 ≤ pos < 16 → board_at b pos ≠ 0%N →
  cal_space_score (board_set b pos 0%N) = cal_space_score b + 5 ∧
  (pos ∈ [5; 6; 9; 10] →
   (evaluate_board p (board_set b pos 0%N)).1 = (evaluate_board p b).1 + 5).
Proof.
  intros Ht Hpos Hne. split; [by apply cal_space_score_set|].
  intros Hin. rewrite !(evaluate_board_single p _ _ Ht), !cal_decreasing_score_top.
  destruct (top_rows_set_inner b pos 0%N Hin) as (-> & -> & -> & ->).
  rewrite cal_space_score_set by done. lia.
Qed.

(** On a border cell the run scores move as well: emptying the last cell of
    the strictly descending top row of [descending_top] changes the
    evaluation by 5 plus the weight of level 0 minus the weight of level 1,
    whatever the weights are. *)
Lemma evaluate_border_cell p :
  tuples p = [[0; 1; 2; 3]] →
  (evaluate_board p (board_set descending_top 3 0%N)).1 =
    (evaluate_board p descending_top).1 + 5 + (map_to_fibonacci 0%N - map_to_fibonacci 1%N).
Proof.
  intros Ht. rewrite !(evaluate_board_single p _ _ Ht), !cal_decreasing_score_top.
  change (cal_space_score (board_set descending_top 3 0%N)) with 5.
  change (cal_space_score descending_top) with 0.
  change (board_set descending_top 3 0%N)
    with (board_of 4 3 2 0  5 5 5 5  5 5 5 5  5 5 5 5).
  unfold run_score, descending_top, board_of, rotate_left. cbn [r0 r1 r2 r3 c0 c1 c2 c3].
  repeat case_decide; lia.
Qed.
End evaluation.

(** ** The search and the selectors *)

Section selectors.
Context `{BoardInterface} `{CxxStd}.

Lemma tree_search_leaf p game d : d ≤ 0 → tree_search p game d = evaluate_board p game.
Proof. intros Hd. rewrite tree_search_equation_1. destruct (Z_le_gt_dec d 0); [done|lia]. Qed.

Lemma tree_search_node p game d :
  0 < d →
  tree_search p game d =
    (foldl (λ best_score op,
              let '(after, reward) := slide game op in
              let score :=
                if decide (reward ≠ -1)
                then reward + (tree_search p after (d - 1)).1
                else 0 in
              Z.max best_score (score + reward))
           0 (opcode p),
     game).
Proof. intros Hd. rewrite tree_search_equation_1. destruct (Z_le_gt_dec d 0); [lia|done]. Qed.

Lemma foldl_max_ge {A} (f : Z → A → Z) (l : list A) a :
  (∀ x y, x ≤ f x y) → a ≤ foldl f a l.
Proof.
  intros Hf. revert a. induction l as [|x l IH]; intros a; cbn [foldl]; [lia|].
  etrans; [apply (Hf a x)|apply IH].
Qed.

Lemma tree_search_nonneg p game d : 0 < d → 0 ≤ (tree_search p game d).1.
Proof.
  intros Hd. rewrite tree_search_node by done. cbn [fst].
  apply foldl_max_ge. intros x op. destruct (slide game op). lia.
Qed.

Lemma greedy_loop_inv b ops :
  reward_contract → greedy_inv b ops (foldl (greedy_step b) (0, -1) ops).
Proof.
  intros Hc. induction ops as [|op ops IH] using rev_ind.
  - left. cbn. split_and!; [done..|]. intros op Hop. by apply elem_of_nil in Hop.
  - rewrite foldl_snoc. destruct (foldl (greedy_step b) (0, -1) ops) as [m best].
    unfold greedy_step. cbn [fst snd] in *. case_decide as Hd.
    + right. exists (length ops). cbn [fst snd]. destruct Hd as [Hl Hm].
      split_and!; [by rewrite list_lookup_middle|done..|].
      intros j op' Hj Hop'. 
      destruct (decide (j < length ops)%nat) as [Hlt|Hge].
      * rewrite lookup_app_l in Hj by done.
        destruct IH as [(_ & _ & Hno)|(i & _ & _ & _ & Hmax)].
        -- exfalso. eapply Hno; [|done]. by eapply list_elem_of_lookup_2.
        -- cbn [fst snd] in Hmax. destruct (Hmax j op' Hj Hop') as [Hle _].
           split; [lia|intros; lia].
      * apply lookup_lt_Some in Hj as Hlen. rewrite length_app in Hlen. cbn in Hlen.
        assert (j = length ops) as -> by lia. rewrite list_lookup_middle in Hj by done.
        injection Hj as <-. split; [lia|done].
    + destruct IH as [(Hb & Hm & Hno)|(i & Hi & Hl & Hm & Hmax)]; cbn [fst snd] in *.
      * left. cbn [fst snd]. split_and!; [done..|].
        intros op' [Hop'|Hop']%elem_of_app; [by apply Hno|].
        apply list_elem_of_singleton in Hop'. subst op'.
        intros Hl. destruct (Hc b op) as [?|?]; [done|]. apply Hd. split; [done|lia].
      * right. exists i. cbn [fst snd]. split_and!; [by apply lookup_app_l_Some|done..|].
        intros j op' Hj Hop'.
        destruct (decide (j < length ops)%nat) as [Hlt|Hge].
        -- rewrite lookup_app_l in Hj by done. by apply Hmax.
        -- apply lookup_lt_Some in Hj as Hlen. rewrite length_app in Hlen. cbn in Hlen.
           assert (j = length ops) as -> by lia. rewrite list_lookup_middle in Hj by done.
           injection Hj as <-. 
           assert ((slide b op).2 < m)
             by (destruct (decide (m ≤ (slide b op).2)); [exfalso; by apply Hd|lia]).
           split; [lia|intros; lia].
Qed.


Lemma directions_lookup (j : nat) op : directions !! j = Some op → op = Z.of_nat j.
Proof.
  unfold directions. do 4 (destruct j as [|j]; [intros [= <-]; done|]). done.
Qed.

Lemma directions_not_sentinel op : op ∈ directions → op ≠ -1.
Proof. intros Hop ->. apply list_elem_of_In in Hop. simpl in Hop. lia. Qed.

Lemma tree_search_as_computed p game d :
  0 < d →
  (tree_search p game d).1 =
    foldl (λ best_score op, Z.max best_score (branch_score_as_computed p game d op))
          0 (opcode p).
Proof.
  intros Hd. rewrite tree_search_node by done. cbn [fst].
  assert (Hloop : ∀ ops best,
    foldl (λ best_score op,
             let '(after, reward) := slide game op in
             let score :=
               if decide (reward ≠ -1)
               then reward + (tree_search p after (d - 1)).1
               else 0 in
             Z.max best_score (score + reward)) best ops =
    foldl (λ best_score op, Z.max best_score (branch_score_as_computed p game d op))
          best ops); [|apply Hloop].
  induction ops as [|op ops IH]; intros best; [done|].
  cbn [foldl]. rewrite IH. f_equal. unfold branch_score_as_computed.
  destruct (slide game op) as [after reward]. case_decide; f_equal; lia.
Qed.

(** The opcodes stay a permutation of 0..3: the constructor lists them in
    order, only [random_action] shuffles them. *)
Lemma take_action_opcode p b :
  shuffle_contract → opcode p ≡ₚ directions → opcode (take_action p b).2 ≡ₚ directions.
Proof.
  intros Hsh Hp. unfold take_action, random_action. repeat case_decide; [done..|].
  pose proof (Hsh (opcode p) (rng (base p))) as Hs.
  destruct (shuffle _ _) as [opcode' e]. cbn [fst snd opcode] in *. by rewrite Hs.
Qed.

Lemma take_action_greedy_opcode p b :
  play_type p = "greedy" → (take_action p b).2 = p.
Proof. intros Hp. unfold take_action. by rewrite decide_True. Qed.

(** C3. With the opcodes in their order 0..3, the greedy selector returns
    the null action iff no direction is legal; otherwise it returns the slide
    of a legal direction whose reward is the largest among the legal ones,
    and of the directions with that reward it is the last one. *)
Theorem greedy_action_spec p b :
  reward_contract → opcode p = directions →
  (greedy_action p b = NoAction ↔ ∀ op, op ∈ directions → ¬ legal b op) ∧
  ((∃ op, op ∈ directions ∧ legal b op) →
   ∃ best, greedy_action p b = Slide best ∧ best ∈ directions ∧ legal b best ∧
     ∀ op, op ∈ directions → legal b op →
       (slide b op).2 ≤ (slide b best).2 ∧
       ((slide b op).2 = (slide b best).2 → op ≤ best)).
Proof.
  intros Hc Hops. unfold greedy_action. rewrite Hops.
  pose proof (greedy_loop_inv b directions Hc) as Hinv.
  destruct (foldl (greedy_step b) (0, -1) directions) as [m best].
  unfold action_of_best.
  destruct Hinv as [(Hb & Hm & Hno)|(i & Hi & Hl & Hm & Hmax)]; cbn [fst snd] in *.
  - subst best. rewrite decide_False by lia. split; [done|].
    intros (op & Hop & Hlop). by destruct (Hno op Hop).
  - assert (best ∈ directions) as Hin by (by eapply list_elem_of_lookup_2).
    rewrite decide_True by (by apply directions_not_sentinel). split.
    + split; [done|]. intros Hno. by destruct (Hno best Hin).
    + intros _. exists best. split_and!; [done..|].
      intros op [j Hj]%list_elem_of_lookup Hlop.
      destruct (Hmax j op Hj Hlop) as [Hle Hlast]. rewrite <- Hm. split; [done|].
      intros Heq. apply Hlast in Heq.
      apply directions_lookup in Hj, Hi. lia.
Qed.

Lemma heuristic_loop_inv p b ops :
  reward_contract → selector_inv b ops (foldl (heuristic_step p b) (0, -1) ops).
Proof.
  intros Hc. induction ops as [|op ops IH] using rev_ind.
  - split; [done|]. left. cbn. split_and!; [done..|]. intros op Hop. by apply elem_of_nil in Hop.
  - rewrite foldl_snoc. destruct (foldl (heuristic_step p b) (0, -1) ops) as [m best].
    destruct IH as [Hm IH]. cbn [fst snd] in *.
    unfold heuristic_step. pose proof (Hc b op) as Hr. unfold selector_inv, legal in *.
    destruct (slide b op) as [after reward] eqn:Hs. cbn [fst snd] in *.
    pose proof (tree_search_nonneg p after 1 ltac:(lia)) as Hcritic.
    repeat case_decide; cbn [fst snd].
    + split; [lia|]. right. rewrite Hs. split; [|done].
      apply elem_of_app. right. by apply list_elem_of_singleton.
    + split; [done|]. right. destruct IH as [(? & ? & ?)|[? ?]]; [lia|].
      split; [|done]. apply elem_of_app. by left.
    + split; [done|]. destruct IH as [(? & ? & Hno)|[? ?]]; [left|right].
      * split_and!; [done..|]. intros op' [?|Hop']%elem_of_app; [by apply Hno|].
        apply list_elem_of_singleton in Hop'. subst op'. rewrite Hs. cbn. lia.
      * split; [|done]. apply elem_of_app. by left.
Qed.

Lemma selector_result b ops st :
  (∀ op, op ∈ ops → op ≠ -1) → selector_inv b ops st →
  ((∀ op, op ∈ ops → ¬ legal b op) → action_of_best st.2 = NoAction) ∧
  ((∃ op, op ∈ ops ∧ legal b op) →
   ∃ op, action_of_best st.2 = Slide op ∧ op ∈ ops ∧ legal b op).
Proof.
  intros Hops [_ [(Hb & _ & Hno)|[Hin Hl]]]; unfold action_of_best.
  - rewrite Hb, decide_False by lia. split; [done|]. intros (op & Hop & Hlop). by destruct (Hno op).
  - rewrite decide_True by (by apply Hops). split; [|by eauto].
    intros Hno. by destruct (Hno _ Hin).
Qed.

Lemma greedy_selector_inv b ops :
  reward_contract → selector_inv b ops (foldl (greedy_step b) (0, -1) ops).
Proof.
  intros Hc. destruct (greedy_loop_inv b ops Hc) as [(Hb & Hm & Hno)|(i & Hi & Hl & Hm & _)].
  - split; [lia|]. by left.
  - split; [|right; split; [by eapply list_elem_of_lookup_2|done]].
    rewrite Hm. destruct (Hc b (foldl (greedy_step b) (0, -1) ops).2); [done|lia].
Qed.

Lemma random_action_loop_spec b ops :
  ((∀ op, op ∈ ops → ¬ legal b op) → random_action_loop b ops = NoAction) ∧
  ((∃ op, op ∈ ops ∧ legal b op) →
   ∃ op, random_action_loop b ops = Slide op ∧ op ∈ ops ∧ legal b op).
Proof.
  induction ops as [|op ops [IHno IHsome]]; cbn [random_action_loop].
  - split; [done|]. intros (op & Hop & _). by apply elem_of_nil in Hop.
  - case_decide as Hd.
    + split; [|intros _; exists op; split_and!; [done|left|done]].
      intros Hno. destruct (Hno op); [left|done].
    + split.
      * intros Hno. apply IHno. intros op' Hop'. apply Hno. by right.
      * intros (op' & [->|Hop']%elem_of_cons & Hl); [done|].
        destruct IHsome as (best & ? & ? & ?); [by eauto|].
        exists best. split_and!; [done|by right|done].
Qed.

Lemma selector_result_perm b ops st :
  ops ≡ₚ directions → selector_inv b ops st →
  ((∀ op, op ∈ directions → ¬ legal b op) → action_of_best st.2 = NoAction) ∧
  ((∃ op, op ∈ directions ∧ legal b op) →
   ∃ op, action_of_best st.2 = Slide op ∧ op ∈ directions ∧ legal b op).
Proof.
  intros Hp Hinv.
  destruct (selector_result b ops st) as [Hno Hsome]; [|done|].
  { intros op Hop. apply directions_not_sentinel. by rewrite <- Hp. }
  split.
  - intros Hnone. apply Hno. intros op Hop. apply Hnone. by rewrite <- Hp.
  - intros (op & Hop & Hl). destruct Hsome as (best & ? & ? & ?).
    + exists op. by rewrite Hp.
    + exists best. by rewrite <- Hp.
Qed.

(** C4. If some direction is legal, each of the random, the greedy and the
    heuristic selector returns the slide of a legal direction; if none is,
    each returns the null action. *)
Theorem selectors_legal p b :
  reward_contract → shuffle_contract → opcode p ≡ₚ directions →
  ((∃ op, op ∈ directions ∧ legal b op) →
   ∀ a, a ∈ [(random_action p b).1; greedy_action p b; heuristic_action p b] →
     ∃ op, a = Slide op ∧ op ∈ directions ∧ legal b op) ∧
  ((∀ op, op ∈ directions → ¬ legal b op) →
   (random_action p b).1 = NoAction ∧
   greedy_action p b = NoAction ∧
   heuristic_action p b = NoAction).
Proof.
  intros Hc Hsh Hp.
  assert (Hrandom :
    ((∀ op, op ∈ directions → ¬ legal b op) → (random_action p b).1 = NoAction) ∧
    ((∃ op, op ∈ directions ∧ legal b op) →
     ∃ op, (random_action p b).1 = Slide op ∧ op ∈ directions ∧ legal b op)).
  { unfold random_action. pose proof (Hsh (opcode p) (rng (base p))) as Hs.
    destruct (shuffle (opcode p) (rng (base p))) as [opcode' e]. cbn [fst] in *.
    destruct (random_action_loop_spec b opcode') as [Hno Hsome]. split.
    - intros Hnone. apply Hno. intros op Hop. apply Hnone. by rewrite <- Hp, <- Hs.
    - intros (op & Hop & Hl). destruct Hsome as (best & ? & ? & ?).
      + exists op. by rewrite Hs, Hp.
      + exists best. by rewrite <- Hp, <- Hs. }
  assert (Hgreedy :
    ((∀ op, op ∈ directions → ¬ legal b op) → greedy_action p b = NoAction) ∧
    ((∃ op, op ∈ directions ∧ legal b op) →
     ∃ op, greedy_action p b = Slide op ∧ op ∈ directions ∧ legal b op)).
  { unfold greedy_action.
    pose proof (selector_result_perm b _ _ Hp (greedy_selector_inv b (opcode p) Hc)) as Hr.
    by destruct (foldl _ _ _). }
  assert (Hheuristic :
    ((∀ op, op ∈ directions → ¬ legal b op) → heuristic_action p b = NoAction) ∧
    ((∃ op, op ∈ directions ∧ legal b op) →
     ∃ op, heuristic_action p b = Slide op ∧ op ∈ directions ∧ legal b op)).
  { unfold heuristic_action.
    pose proof (selector_result_perm b _ _ Hp (heuristic_loop_inv p b (opcode p) Hc)) as Hr.
    by destruct (foldl _ _ _). }
  split.
  - intros Hsome a Ha. apply list_elem_of_In in Ha. simpl in Ha.
    destruct Ha as [<-|[<-|[<-|[]]]];
      [by apply Hrandom|by apply Hgreedy|by apply Hheuristic].
  - intros Hnone. split_and!; [by apply Hrandom|by apply Hgreedy|by apply Hheuristic].
Qed.
End selectors.

(** ** The environment *)

Section environment.
Context `{BoardInterface} `{CxxStd}.

Lemma rndenv_loop_spec after positions e :
  (∃ pos, pos ∈ positions ∧ empty_at after pos) →
  ∃ k pos,
    list_find (empty_at after) positions = Some (k, pos) ∧
    rndenv_loop after positions e =
      (Place pos (if decide ((uniform_int 0 9 e).1 ≠ 0) then 1%N else 2%N),
       (uniform_int 0 9 e).2).
Proof.
  induction positions as [|pos positions IH]; intros (pos' & Hin & Hempty).
  - by apply elem_of_nil in Hin.
  - cbn [rndenv_loop list_find].
    destruct (decide (empty_at after pos)) as [He|Hne].
    + rewrite (decide_False (P := board_at after pos ≠ 0%N)) by (intros Hn; by apply Hn).
      exists 0%nat, pos. split; [done|]. by destruct (uniform_int 0 9 e).
    + rewrite (decide_True (P := board_at after pos ≠ 0%N)) by done.
      apply elem_of_cons in Hin as [->|Hin]; [done|].
      destruct IH as (k & q & Hfind & Hloop); [by eauto|].
      exists (S k), q. rewrite Hfind. done.
Qed.

(** C2, amended. On a board with an empty cell the environment places a
    tile on the first empty cell of the shuffled order; after the single
    draw from 0..9 the tile is the low one exactly for the draws 1..9 and the
    high one exactly for the draw 0. *)
Theorem rndenv_take_action_spec env after :
  shuffle_contract → uniform_int_contract →
  space env ≡ₚ seqZ 0 16 → has_empty_cell after →
  let '(space', e) := shuffle (space env) (rng (env_base env)) in
  let '(draw, e') := uniform_int 0 9 e in
  ∃ k pos tile,
    rndenv_take_action env after =
      (Place pos tile, Rndenv (RandomAgent (meta (env_base env)) e') space') ∧
    list_find (empty_at after) space' = Some (k, pos) ∧
    (tile = low_tile ↔ 1 ≤ draw ≤ 9) ∧
    (tile = high_tile ↔ draw = 0).
Proof.
  intros Hsh Hu Hsp (i & Hi & Hempty). unfold rndenv_take_action.
  pose proof (Hsh (space env) (rng (env_base env))) as Hperm.
  destruct (shuffle (space env) (rng (env_base env))) as [space' e]. cbn [fst] in Hperm.
  destruct (rndenv_loop_spec after space' e) as (k & pos & Hfind & Hloop).
  { exists i. split; [|done]. rewrite Hperm, Hsp. apply elem_of_seqZ. lia. }
  rewrite Hloop. pose proof (Hu 0 9 e ltac:(lia)) as Hdraw.
  destruct (uniform_int 0 9 e) as [draw e']. cbn [fst snd] in *.
  exists k, pos, (if decide (draw ≠ 0) then 1%N else 2%N).
  split_and!; [done..| |]; unfold low_tile, high_tile; case_decide; split; (done || lia).
Qed.
End environment.

(** ** The configuration and the constructors *)

Lemma extract_agent_prefix args :
  extract ("name=unknown role=unknown " +:+ args) "" =
  "name=unknown" :: "role=unknown" :: extract args "".
Proof. reflexivity. Qed.

Lemma extract_player_prefix args :
  extract ("name=unknown role=unknown " +:+ ("name=dummy role=player " +:+ args)) "" =
  ["name=unknown"; "role=unknown"; "name=dummy"; "role=player"] ++ extract args "".
Proof. reflexivity. Qed.

Lemma set_pairs_lookup_None (pairs : list string) (m : gmap string string) key :
  m !! key = None → Forall (λ pair, key_of pair ≠ key) pairs →
  foldl set_pair m pairs !! key = None.
Proof.
  intros Hm Hp. revert m Hm. induction Hp as [|pair pairs Hk Hp IH]; intros m Hm; [done|].
  cbn [foldl]. apply IH. unfold set_pair. by rewrite lookup_insert_ne.
Qed.

Section construction.
Context `{BoardInterface} `{CxxStd}.

Lemma agent_ctor_no_seed args : no_seed_key args → agent_ctor args !! "seed" = None.
Proof.
  intros Hargs. unfold agent_ctor. rewrite extract_agent_prefix.
  apply set_pairs_lookup_None; [done|]. 
  repeat (apply Forall_cons; split; [by vm_compute|]). done.
Qed.

Lemma no_seed_key_prefix args :
  no_seed_key args →
  no_seed_key ("name=dummy role=player " +:+ args) ∧
  no_seed_key ("name=random role=environment " +:+ args).
Proof.
  intros Hargs. unfold no_seed_key. 
  change (extract ("name=dummy role=player " +:+ args) "")
    with ("name=dummy" :: "role=player" :: extract args "").
  change (extract ("name=random role=environment " +:+ args) "")
    with ("name=random" :: "role=environment" :: extract args "").
  split; repeat (apply Forall_cons; split; [by vm_compute|]); done.
Qed.

(** C8. For a configuration string without a "seed" key the constructors
    succeed, with the default-constructed engine: no failure, in particular
    no missing-key failure, is raised. *)
Theorem construction_without_seed args :
  no_seed_key args →
  random_agent_ctor args = Ok (RandomAgent (agent_ctor args) default_engine) ∧
  rndenv_ctor args = Ok (unseeded_rndenv args) ∧
  player_ctor args = Ok (unseeded_player args).
Proof.
  intros Hargs. destruct (no_seed_key_prefix args Hargs) as [Hp He].
  unfold rndenv_ctor, player_ctor, random_agent_ctor.
  rewrite !agent_ctor_no_seed by done. done.
Qed.
(** The constructor never fails on a missing key, and it reads the seed when
    [meta] has one. *)
Lemma construction_never_out_of_range args key :
  random_agent_ctor args ≠ Throw (out_of_range key).
Proof. unfold random_agent_ctor. by repeat case_match. Qed.

Lemma random_agent_ctor_seeded args value s :
  agent_ctor args !! "seed" = Some value → stod value = Some s →
  random_agent_ctor args = Ok (RandomAgent (agent_ctor args) (seed default_engine s)).
Proof. intros Hv Hs. unfold random_agent_ctor. by rewrite Hv, Hs. Qed.

End construction.

(** ** The object store *)

Lemma bind_Some {A B} (m : M A) (k : A → M B) h a h' :
  m h = Some (a, h') → bind m k h = k a h'.
Proof. intros Hm. unfold bind. by rewrite Hm. Qed.

Lemma deref_Some h r b : h !! r = Some b → deref r h = Some (b, h).
Proof. intros Hr. unfold deref. by rewrite Hr. Qed.

Lemma assign_Some h r b b' : h !! r = Some b → assign r b' h = Some (tt, <[r := b']> h).
Proof. intros Hr. unfold assign. by rewrite Hr. Qed.

Lemma copy_Some h r b : h !! r = Some b → copy r h = Some (length h, h ++ [b]).
Proof. intros Hr. unfold copy. by rewrite Hr. Qed.

Lemma foldM_pure {A B} (f : A → B → M A) (g : A → B → A) (l : list B) a h :
  (∀ a x, f a x h = Some (g a x, h)) → foldM f a l h = Some (foldl g a l, h).
Proof.
  intros Hf. revert a. induction l as [|x l IH]; intros a; cbn [foldM foldl]; [done|].
  rewrite (bind_Some _ _ _ _ _ (Hf a x)). apply IH.
Qed.

Lemma lookup_fresh (h : store) b : (h ++ [b]) !! length h = Some b.
Proof. by apply list_lookup_middle. Qed.

Lemma insert_fresh (h : store) b b' : <[length h := b']> (h ++ [b]) = h ++ [b'].
Proof. rewrite insert_app_r_alt by lia. by rewrite Nat.sub_diag. Qed.

Section store_proofs.
Context `{BoardInterface} `{CxxStd}.

Lemma at_ref_Some h r b i : h !! r = Some b → at_ref r i h = Some (board_at b i, h).
Proof. intros Hr. unfold at_ref. by rewrite (bind_Some _ _ _ _ _ (deref_Some _ _ _ Hr)). Qed.

Lemma slide_ref_Some h r b op :
  h !! r = Some b → slide_ref r op h = Some ((slide b op).2, <[r := (slide b op).1]> h).
Proof.
  intros Hr. unfold slide_ref.
  rewrite (bind_Some _ _ _ _ _ (deref_Some _ _ _ Hr)).
  by rewrite (bind_Some _ _ _ _ _ (assign_Some _ _ _ _ Hr)).
Qed.

Lemma rotate_left_ref_Some h r b :
  h !! r = Some b → rotate_left_ref r h = Some (tt, <[r := rotate_left b]> h).
Proof.
  intros Hr. unfold rotate_left_ref.
  rewrite (bind_Some _ _ _ _ _ (deref_Some _ _ _ Hr)). apply (assign_Some _ _ _ _ Hr).
Qed.

Lemma cal_decreasing_loop_ref_Some h r b tuple indices dec inc score :
  h !! r = Some b →
  cal_decreasing_loop_ref tuple r indices dec inc score h =
    Some (cal_decreasing_loop tuple b indices dec inc score, h).
Proof.
  intros Hr. revert dec inc score.
  induction indices as [|i indices IH]; intros dec inc score;
    cbn [cal_decreasing_loop_ref cal_decreasing_loop]; [done|].
  rewrite (bind_Some _ _ _ _ _ (at_ref_Some _ _ _ _ Hr)).
  rewrite (bind_Some _ _ _ _ _ (at_ref_Some _ _ _ _ Hr)).
  repeat case_decide; (done || apply IH).
Qed.

Lemma cal_decreasing_score_ref_Some h r b tuple :
  h !! r = Some b →
  cal_decreasing_score_ref tuple r h = Some (cal_decreasing_score tuple b, h).
Proof. intros Hr. by apply cal_decreasing_loop_ref_Some. Qed.

Lemma cal_space_score_ref_Some h r b :
  h !! r = Some b → cal_space_score_ref r h = Some (cal_space_score b, h).
Proof.
  intros Hr. unfold cal_space_score_ref, cal_space_score.
  erewrite bind_Some; [done|].
  apply (foldM_pure _ (space_count b)).
  intros a i. by rewrite (bind_Some _ _ _ _ _ (at_ref_Some _ _ _ _ Hr)).
Qed.

Lemma rotation_round_ref h r b tuple score :
  h !! r = Some b →
  (let! s := cal_decreasing_score_ref tuple r in
   do! rotate_left_ref r in
   ret (score + s)) h =
  Some (score + cal_decreasing_score tuple b, <[r := rotate_left b]> h).
Proof.
  intros Hr.
  rewrite (bind_Some _ _ _ _ _ (cal_decreasing_score_ref_Some _ _ _ _ Hr)).
  by rewrite (bind_Some _ _ _ _ _ (rotate_left_ref_Some _ _ _ Hr)).
Qed.

Lemma rotation_loop_ref h r b tuple score :
  h !! r = Some b →
  foldM (λ score (_ : Z),
           let! s := cal_decreasing_score_ref tuple r in
           do! rotate_left_ref r in
           ret (score + s))
        score (seqZ 0 4) h =
  Some ((foldl (λ '(score, after) (_ : Z),
                  (score + cal_decreasing_score tuple after, rotate_left after))
               (score, b) (seqZ 0 4)).1, h).
Proof.
  intros Hr. apply lookup_lt_Some in Hr as Hlt.
  change (seqZ 0 4) with [0; 1; 2; 3]. cbn [foldM foldl fst].
  rewrite (bind_Some _ _ _ _ _ (rotation_round_ref _ _ _ _ _ Hr)).
  erewrite bind_Some; [|apply rotation_round_ref; by apply list_lookup_insert_eq].

  rewrite list_insert_insert_eq.
  erewrite bind_Some; [|apply rotation_round_ref; by apply list_lookup_insert_eq].
  rewrite list_insert_insert_eq.
  erewrite bind_Some; [|apply rotation_round_ref; by apply list_lookup_insert_eq].
  rewrite list_insert_insert_eq, rotate_left_4, list_insert_id by done. done.
Qed.

Lemma tuples_loop_ref h r b (ts : list (list Z)) score :
  h !! r = Some b →
  foldM (λ score tuple,
           foldM (λ score (_ : Z),
                    let! s := cal_decreasing_score_ref tuple r in
                    do! rotate_left_ref r in
                    ret (score + s))
                 score (seqZ 0 4))
        score ts h =
  Some ((foldl (λ '(score, after) tuple,
                  foldl (λ '(score, after) (_ : Z),
                           (score + cal_decreasing_score tuple after, rotate_left after))
                        (score, after) (seqZ 0 4))
               (score, b) ts).1, h).
Proof.
  intros Hr. revert score. induction ts as [|t ts IH]; intros score; cbn [foldM foldl]; [done|].
  rewrite (bind_Some _ _ _ _ _ (rotation_loop_ref _ _ _ _ _ Hr)).
  rewrite rotation_loop. cbn [fst]. rewrite IH. done.
Qed.

Lemma evaluate_board_ref_Some p h r b :
  h !! r = Some b → evaluate_board_ref p r h = Some ((evaluate_board p b).1, h).
Proof.
  intros Hr. unfold evaluate_board_ref, evaluate_board.
  rewrite (bind_Some _ _ _ _ _ (tuples_loop_ref _ _ _ _ _ Hr)).
  rewrite (bind_Some _ _ _ _ _ (cal_space_score_ref_Some _ _ _ Hr)).
  pose proof (tuples_loop_board (tuples p) 0 b) as Hb.
  destruct (foldl _ _ _) as [score after]. cbn [fst snd] in *. by subst after.
Qed.

(** One round of the search loop on the store *)
Lemma search_round_ref p d h r b best_score op :
  h !! r = Some b →
  (∀ h' r' b', h' !! r' = Some b' →
     ∃ extra, tree_search_ref p r' (d - 1) h' =
              Some ((tree_search p b' (d - 1)).1, h' ++ extra)) →
  ∃ extra,
    (let! after := copy r in
     let! reward := slide_ref after op in
     let! score :=
       (if decide (reward ≠ -1)
        then let! s := tree_search_ref p after (d - 1) in ret (reward + s)
        else ret 0) in
     ret (Z.max best_score (score + reward))) h =
    Some ((let '(after, reward) := slide b op in
           let score :=
             if decide (reward ≠ -1)
             then reward + (tree_search p after (d - 1)).1
             else 0 in
           Z.max best_score (score + reward)), h ++ extra).
Proof.
  intros Hr IH.
  rewrite (bind_Some _ _ _ _ _ (copy_Some _ _ _ Hr)).
  rewrite (bind_Some _ _ _ _ _ (slide_ref_Some _ _ _ _ (lookup_fresh h b))).
  rewrite insert_fresh. destruct (slide b op) as [after reward]. cbn [fst snd].
  case_decide.
  - destruct (IH (h ++ [after]) (length h) after (lookup_fresh h after)) as [extra Hs].
    exists (after :: extra).
    erewrite bind_Some; [|by erewrite bind_Some].
    by rewrite <- app_assoc.
  - by exists [after].
Qed.

Lemma search_loop_ref p d h r b ops :
  h !! r = Some b →
  (∀ h' r' b', h' !! r' = Some b' →
     ∃ extra, tree_search_ref p r' (d - 1) h' =
              Some ((tree_search p b' (d - 1)).1, h' ++ extra)) →
  ∀ best_score extra0, ∃ extra,
    foldM (λ best_score op,
             let! after := copy r in
             let! reward := slide_ref after op in
             let! score :=
               (if decide (reward ≠ -1)
                then let! s := tree_search_ref p after (d - 1) in ret (reward + s)
                else ret 0) in
             ret (Z.max best_score (score + reward)))
          best_score ops (h ++ extra0) =
    Some (foldl (λ best_score op,
                   let '(after, reward) := slide b op in
                   let score :=
                     if decide (reward ≠ -1)
                     then reward + (tree_search p after (d - 1)).1
                     else 0 in
                   Z.max best_score (score + reward))
                best_score ops,
          h ++ extra).
Proof.
  intros Hr Hrec.
  induction ops as [|op ops IHops]; intros best extra0; cbn [foldM foldl].
  - by exists extra0.
  - destruct (search_round_ref p d (h ++ extra0) r b best op) as [extra1 H1];
      [by apply lookup_app_l_Some|done|].
    rewrite (bind_Some _ _ _ _ _ H1). rewrite <- app_assoc. apply IHops.
Qed.

Lemma tree_search_ref_Some p d :
  ∀ h r b, h !! r = Some b →
    ∃ extra, tree_search_ref p r d h = Some ((tree_search p b d).1, h ++ extra).
Proof.
  remember (Z.to_nat d) as n eqn:Hn. revert d Hn.
  induction n as [n IHn] using lt_wf_ind. intros d Hn h r b Hr.
  rewrite tree_search_ref_equation_1, tree_search_equation_1.
  destruct (Z_le_gt_dec d 0) as [Hd|Hd]; cbn.
  - exists []. rewrite app_nil_r. by apply evaluate_board_ref_Some.
  - assert (Hrec : ∀ h' r' b', h' !! r' = Some b' →
       ∃ extra, tree_search_ref p r' (d - 1) h' =
                Some ((tree_search p b' (d - 1)).1, h' ++ extra)).
    { intros h' r' b' Hr'. eapply (IHn (Z.to_nat (d - 1))); [lia|done|done]. }
    destruct (search_loop_ref p d h r b (opcode p) Hr Hrec 0 []) as [extra He].
    rewrite app_nil_r in He. by exists extra.
Qed.

Lemma random_action_loop_ref_Some h r b ops :
  h !! r = Some b →
  ∀ extra0, ∃ extra,
    random_action_loop_ref r ops (h ++ extra0) = Some (random_action_loop b ops, h ++ extra).
Proof.
  intros Hr. induction ops as [|op ops IH]; intros extra0;
    cbn [random_action_loop_ref random_action_loop].
  - by exists extra0.
  - pose proof (lookup_app_l_Some _ extra0 _ _ Hr) as Hr'.
    rewrite (bind_Some _ _ _ _ _ (copy_Some _ _ _ Hr')).
    rewrite (bind_Some _ _ _ _ _ (slide_ref_Some _ _ _ _ (lookup_fresh _ b))).
    rewrite insert_fresh, <- app_assoc. case_decide; [by eexists|apply IH].
Qed.

Lemma greedy_loop_ref_Some h r b ops :
  h !! r = Some b →
  ∀ st extra0, ∃ extra,
    foldM (λ '(max_reward, best_op) op,
             let! tmp := copy r in
             let! reward := slide_ref tmp op in
             ret (if decide (reward ≠ -1 ∧ max_reward ≤ reward)
                  then (reward, op)
                  else (max_reward, best_op)))
          st ops (h ++ extra0) =
    Some (foldl (greedy_step b) st ops, h ++ extra).
Proof.
  intros Hr. induction ops as [|op ops IH]; intros [max_reward best_op] extra0;
    cbn [foldM foldl]; cbv beta iota.
  - by exists extra0.
  - pose proof (lookup_app_l_Some _ extra0 _ _ Hr) as Hr'.
    erewrite bind_Some; cycle 1.
    { rewrite (bind_Some _ _ _ _ _ (copy_Some _ _ _ Hr')).
      rewrite (bind_Some _ _ _ _ _ (slide_ref_Some _ _ _ _ (lookup_fresh _ b))).
      by rewrite insert_fresh, <- app_assoc. }
    apply IH.
Qed.

Lemma heuristic_round_ref p h r b max_score best_op op :
  h !! r = Some b →
  ∃ extra,
    (let! after := copy r in
     let! reward := slide_ref after op in
     if decide (reward ≠ -1)
     then
       let! critic := tree_search_ref p after 1 in
       ret (if decide (max_score ≤ reward + critic)
            then (reward + critic, op)
            else (max_score, best_op))
     else ret (max_score, best_op)) h =
    Some (heuristic_step p b (max_score, best_op) op, h ++ extra).
Proof.
  intros Hr. unfold heuristic_step.
  rewrite (bind_Some _ _ _ _ _ (copy_Some _ _ _ Hr)).
  rewrite (bind_Some _ _ _ _ _ (slide_ref_Some _ _ _ _ (lookup_fresh _ b))).
  rewrite insert_fresh. destruct (slide b op) as [after reward]. cbn [fst snd].
  case_decide.
  - destruct (tree_search_ref_Some p 1 (h ++ [after]) (length h) after
                (lookup_fresh _ after)) as [extra Ht].
    rewrite (bind_Some _ _ _ _ _ Ht), <- app_assoc. by eexists.
  - by eexists.
Qed.

Lemma heuristic_loop_ref_Some p h r b ops :
  h !! r = Some b →
  ∀ st extra0, ∃ extra,
    foldM (λ '(max_score, best_op) op,
             let! after := copy r in
             let! reward := slide_ref after op in
             if decide (reward ≠ -1)
             then
               let! critic := tree_search_ref p after 1 in
               ret (if decide (max_score ≤ reward + critic)
                    then (reward + critic, op)
                    else (max_score, best_op))
             else ret (max_score, best_op))
          st ops (h ++ extra0) =
    Some (foldl (heuristic_step p b) st ops, h ++ extra).
Proof.
  intros Hr. induction ops as [|op ops IH]; intros [max_score best_op] extra0;
    cbn [foldM foldl]; cbv beta iota.
  - by exists extra0.
  - destruct (heuristic_round_ref p (h ++ extra0) r b max_score best_op op) as [extra1 H1];
      [by apply lookup_app_l_Some|].
    rewrite (bind_Some _ _ _ _ _ H1), <- app_assoc. apply IH.
Qed.

(** C7. [take_action], in each of the three modes, leaves the board of the
    caller, and every other board alive at the call, as it was: all slides
    land on fresh copies.  It returns what the value-level [take_action]
    computes from the board. *)
Theorem take_action_keeps_board p h r b :
  h !! r = Some b →
  ∃ h', take_action_ref p r h = Some (take_action p b, h') ∧
        h' !! r = Some b ∧
        ∀ r' b', h !! r' = Some b' → h' !! r' = Some b'.
Proof.
  intros Hr.
  cut (∃ extra, take_action_ref p r h = Some (take_action p b, h ++ extra)).
  { intros [extra He]. exists (h ++ extra). split_and!; [done|by apply lookup_app_l_Some|].
    intros r' b' Hr'. by apply lookup_app_l_Some. }
  unfold take_action_ref, take_action. repeat case_decide.
  - unfold greedy_action_ref, greedy_action.
    destruct (greedy_loop_ref_Some h r b (opcode p) Hr (0, -1) []) as [extra He].
    rewrite app_nil_r in He. exists extra.
    rewrite (bind_Some _ _ _ _ _ (bind_Some _ _ _ _ _ He)).
    by destruct (foldl _ _ _).
  - unfold heuristic_action_ref, heuristic_action.
    destruct (heuristic_loop_ref_Some p h r b (opcode p) Hr (0, -1) []) as [extra He].
    rewrite app_nil_r in He. exists extra.
    rewrite (bind_Some _ _ _ _ _ (bind_Some _ _ _ _ _ He)).
    by destruct (foldl _ _ _).
  - unfold random_action_ref, random_action.
    destruct (shuffle (opcode p) (rng (base p))) as [opcode' e].
    destruct (random_action_loop_ref_Some h r b opcode' Hr []) as [extra He].
    rewrite app_nil_r in He. exists extra.
    by rewrite (bind_Some _ _ _ _ _ He).
Qed.
End store_proofs.

(** ** The dispatch *)

Section dispatch.
Context `{BoardInterface} `{CxxStd}.

Lemma player_ctor_fields args p :
  player_ctor args = Ok p →
  play_type p = args ∧ opcode p = directions ∧ tuples p = [[0; 1; 2; 3]].
Proof.
  unfold player_ctor. destruct (random_agent_ctor _); cbn; [|done]. by intros [= <-].
Qed.

(** C9. The mode of a player is the whole argument string of its
    constructor: [take_action] runs the greedy selector when the string is
    exactly "greedy", the heuristic selector when it is exactly "heuristic",
    and the random selector for every other string. *)
Theorem take_action_dispatch args p b :
  player_ctor args = Ok p →
  play_type p = args ∧
  (args = "greedy" → take_action p b = (greedy_action p b, p)) ∧
  (args = "heuristic" → take_action p b = (heuristic_action p b, p)) ∧
  (args ≠ "greedy" → args ≠ "heuristic" → take_action p b = random_action p b).
Proof.
  intros Hp. apply player_ctor_fields in Hp as (Hp & _ & _).
  unfold take_action. rewrite Hp. split_and!; [done|..].
  - intros ->. by rewrite decide_True.
  - intros ->. rewrite decide_False by done. by rewrite decide_True.
  - intros Hg Hh. by rewrite !decide_False.
Qed.
End dispatch.

(** ** The interfaces of the examples keep the contracts *)

Lemma fibonacci_pair_pos n : 0 < (fibonacci_pair n).1 ∧ 0 < (fibonacci_pair n).2.
Proof.
  induction n as [|n IH]; cbn [fibonacci_pair]; [cbn; lia|].
  destruct (fibonacci_pair n) as [a b]. cbn [fst snd] in *. lia.
Qed.

Lemma fibonacci_nonneg level : 0 ≤ fibonacci level.
Proof.
  unfold fibonacci. destruct level; [done|].
  pose proof (fibonacci_pair_pos (N.to_nat (N.pos p) - 1)). lia.
Qed.

Lemma slide_cells_nonneg cells hold : 0 ≤ (slide_cells cells hold).2.
Proof.
  revert hold. induction cells as [|t cells IH]; intros hold; cbn [slide_cells]; [done|].
  repeat case_decide; try apply IH.
  - pose proof (IH 0%N). pose proof (fibonacci_nonneg (N.max t hold + 1)%N).
    destruct (slide_cells cells 0%N). cbn [snd] in *. lia.
  - pose proof (IH t). destruct (slide_cells cells t). done.
Qed.

Lemma slide_row_nonneg r : 0 ≤ (slide_row r).2.
Proof.
  unfold slide_row. pose proof (slide_cells_nonneg [c0 r; c1 r; c2 r; c3 r] 0%N).
  by destruct (slide_cells _ _).
Qed.

Lemma slide_left_reward b : (slide_left b).2 = -1 ∨ 0 ≤ (slide_left b).2.
Proof.
  unfold slide_left.
  pose proof (slide_row_nonneg (r0 b)). pose proof (slide_row_nonneg (r1 b)).
  pose proof (slide_row_nonneg (r2 b)). pose proof (slide_row_nonneg (r3 b)).
  destruct (slide_row (r0 b)), (slide_row (r1 b)), (slide_row (r2 b)), (slide_row (r3 b)).
  cbn [fst snd] in *. case_decide; [by left|right; lia].
Qed.

Lemma slide_right_reward b : (slide_right b).2 = -1 ∨ 0 ≤ (slide_right b).2.
Proof.
  unfold slide_right. pose proof (slide_left_reward (reflect_horizontal b)).
  by destruct (slide_left _).
Qed.

Lemma slide_up_reward b : (slide_up b).2 = -1 ∨ 0 ≤ (slide_up b).2.
Proof.
  unfold slide_up. pose proof (slide_left_reward (transpose b)). by destruct (slide_left _).
Qed.

Lemma slide_down_reward b : (slide_down b).2 = -1 ∨ 0 ≤ (slide_down b).2.
Proof.
  unfold slide_down. pose proof (slide_right_reward (transpose b)). by destruct (slide_right _).
Qed.

Lemma board_2584_reward_contract : @reward_contract board_2584.
Proof.
  intros b op. cbn [slide board_2584]. unfold slide_2584.
  destruct (Z.land op 3) as [|[[]|[]|]|];
    auto using slide_left_reward, slide_right_reward, slide_up_reward, slide_down_reward.
Qed.

Lemma tape_shuffle_contract : @shuffle_contract tape_std.
Proof.
  intros l [|x e]; cbn; [done|].
  unfold rotate. rewrite Permutation_app_comm. by rewrite take_drop.
Qed.

Lemma tape_uniform_int_contract : @uniform_int_contract tape_std.
Proof.
  intros lo hi [|x e] Hle; cbn; [lia|].
  pose proof (Z.mod_pos_bound x (hi - lo + 1)). lia.
Qed.

(** ** Examples *)

(** C1, refuted on the code. With two level-1 tiles side by side in the top
    row, sliding right or left merges them for the reward 2 and leaves a board
    of evaluation 75.  The search of depth 1 returns 79 = 2 + 2 + 75: the loop
    takes the maximum of [score + reward], where [score] holds the reward
    already.  The maximum of reward plus deeper search is 77. *)
Theorem tree_search_counts_reward_twice :
  let p := @unseeded_player tape_std "heuristic" in
  let game := board_of 1 1 0 0  0 0 0 0  0 0 0 0  0 0 0 0 in
  (@tree_search board_2584 tape_std p game 1).1 = 79 ∧
  @tree_search_as_specified board_2584 tape_std p game 1 = 77.
Proof. vm_compute. done. Qed.

(** C5 as stated fails on a border cell: emptying the last cell of a strictly
    descending top row changes the run score of that row as well, and the
    evaluation goes from 6 to 10, not to 11. *)
Lemma evaluate_set_empty_border :
  let p := @unseeded_player tape_std "heuristic" in
  board_at descending_top 3 ≠ 0%N ∧
  (@evaluate_board board_2584 tape_std p (board_set descending_top 3 0%N)).1 ≠
    (@evaluate_board board_2584 tape_std p descending_top).1 + 5.
Proof. vm_compute. split; discriminate. Qed.

(** C5, amended, on the inner cell 5 of a full board. *)
Lemma evaluate_set_empty_witness :
  let p := @unseeded_player tape_std "heuristic" in
  cal_space_score (board_set scrambled 5 0%N) = cal_space_score scrambled + 5 ∧
  (5 ∈ [5; 6; 9; 10] →
   (@evaluate_board board_2584 tape_std p (board_set scrambled 5 0%N)).1 =
     (@evaluate_board board_2584 tape_std p scrambled).1 + 5).
Proof.
  apply (@evaluate_set_empty board_2584 tape_std); [reflexivity|lia|vm_compute; discriminate].
Defined.

(** C6 on a full board without a monotonic border line. *)
Lemma evaluate_full_not_monotonic_witness :
  (@evaluate_board board_2584 tape_std (@unseeded_player tape_std "heuristic") scrambled).1 = 0.
Proof.
  apply (@evaluate_full_not_monotonic board_2584 tape_std); [reflexivity| |].
  - intros i Hi. each_position Hi; vm_compute; discriminate.
  - intros k Hk. unfold strictly_monotonic.
    destruct k as [|[|[|[|k]]]]; [..|lia];
      vm_compute; intros [Hm|Hm]; decompose [and] Hm; discriminate.
Defined.

(** C2 as stated fails on the draw 0: the environment places the high tile,
    where the specification promises the low one for the draws 0..8. *)
Lemma placement_draw_zero :
  has_empty_cell empty_board ∧
  ¬ @placement_as_specified tape_std (tape_rndenv [0; 0]) empty_board.
Proof.
  split; [exists 0; split; [lia|reflexivity]|].
  unfold placement_as_specified.
  change (@shuffle tape_std (space (tape_rndenv [0; 0])) (rng (env_base (tape_rndenv [0; 0]))))
    with (seqZ 0 16, [0]).
  cbv beta iota.
  change ((@uniform_int tape_std 0 9 [0]).1) with 0.
  intros (k & pos & tile & Hact & _ & Hlow & _).
  change (@rndenv_take_action tape_std (tape_rndenv [0; 0]) empty_board).1
    with (Place 0 2%N) in Hact.
  injection Hact as <- <-. unfold low_tile in Hlow.
  assert (2%N = 1%N) by (apply Hlow; lia). discriminate.
Qed.

(** C2, amended, on an engine that rotates the positions by 5 and draws 3. *)
Lemma rndenv_take_action_spec_witness :
  let env := tape_rndenv [5; 13] in
  let after := two_ones in
  let '(space', e) := @shuffle tape_std (space env) (rng (env_base env)) in
  let '(draw, e') := @uniform_int tape_std 0 9 e in
  ∃ k pos tile,
    rndenv_take_action env after =
      (Place pos tile, Rndenv (RandomAgent (meta (env_base env)) e') space') ∧
    list_find (empty_at after) space' = Some (k, pos) ∧
    (tile = low_tile ↔ 1 ≤ draw ≤ 9) ∧
    (tile = high_tile ↔ draw = 0).
Proof.
  apply (@rndenv_take_action_spec tape_std (tape_rndenv [5; 13]) two_ones).
  - apply tape_shuffle_contract.
  - apply tape_uniform_int_contract.
  - reflexivity.
  - exists 2. split; [lia|reflexivity].
Defined.

(** C3 on the board with two level-1 tiles. *)
Lemma greedy_action_spec_witness :
  let p := @unseeded_player tape_std "greedy" in
  (@greedy_action board_2584 tape_std p two_ones = NoAction ↔
     ∀ op, op ∈ directions → ¬ @legal board_2584 two_ones op) ∧
  ((∃ op, op ∈ directions ∧ @legal board_2584 two_ones op) →
   ∃ best, @greedy_action board_2584 tape_std p two_ones = Slide best ∧
     best ∈ directions ∧ @legal board_2584 two_ones best ∧
     ∀ op, op ∈ directions → @legal board_2584 two_ones op →
       (@slide board_2584 two_ones op).2 ≤ (@slide board_2584 two_ones best).2 ∧
       ((@slide board_2584 two_ones op).2 = (@slide board_2584 two_ones best).2 → op ≤ best)).
Proof.
  apply (@greedy_action_spec board_2584 tape_std);
    [apply board_2584_reward_contract|reflexivity].
Defined.

(** C4 on the board with two level-1 tiles. *)
Lemma selectors_legal_witness :
  let p := @unseeded_player tape_std "" in
  ((∃ op, op ∈ directions ∧ @legal board_2584 two_ones op) →
   ∀ a, a ∈ [(@random_action board_2584 tape_std p two_ones).1;
             @greedy_action board_2584 tape_std p two_ones;
             @heuristic_action board_2584 tape_std p two_ones] →
     ∃ op, a = Slide op ∧ op ∈ directions ∧ @legal board_2584 two_ones op) ∧
  ((∀ op, op ∈ directions → ¬ @legal board_2584 two_ones op) →
   (@random_action board_2584 tape_std p two_ones).1 = NoAction ∧
   @greedy_action board_2584 tape_std p two_ones = NoAction ∧
   @heuristic_action board_2584 tape_std p two_ones = NoAction).
Proof.
  apply (@selectors_legal board_2584 tape_std);
    [apply board_2584_reward_contract|apply tape_shuffle_contract|reflexivity].
Defined.

(** C7 on a store holding the board of the caller only. *)
Lemma take_action_keeps_board_witness :
  let p := @unseeded_player tape_std "heuristic" in
  ∃ h', @take_action_ref board_2584 tape_std p 0%nat [two_ones] =
          Some (@take_action board_2584 tape_std p two_ones, h') ∧
        h' !! 0%nat = Some two_ones ∧
        ∀ r' b', [two_ones] !! r' = Some b' → h' !! r' = Some b'.
Proof.
  apply (@take_action_keeps_board board_2584 tape_std). reflexivity.
Defined.

(** C8 on a configuration with a name and a mode word. *)
Lemma construction_without_seed_witness :
  @random_agent_ctor tape_std "name=x greedy" =
    Ok (RandomAgent (agent_ctor "name=x greedy") default_engine) ∧
  @rndenv_ctor tape_std "name=x greedy" = Ok (unseeded_rndenv "name=x greedy") ∧
  @player_ctor tape_std "name=x greedy" = Ok (unseeded_player "name=x greedy").
Proof.
  apply (@construction_without_seed tape_std).
  unfold no_seed_key. change (extract "name=x greedy" "") with ["name=x"; "greedy"].
  repeat constructor; vm_compute; discriminate.
Defined.

(** C9 on an argument string that contains the mode word. *)
Lemma take_action_dispatch_witness :
  let args := "name=x greedy" in
  let p := @unseeded_player tape_std args in
  play_type p = args ∧
  (args = "greedy" →
   @take_action board_2584 tape_std p two_ones =
     (@greedy_action board_2584 tape_std p two_ones, p)) ∧
  (args = "heuristic" →
   @take_action board_2584 tape_std p two_ones =
     (@heuristic_action board_2584 tape_std p two_ones, p)) ∧
  (args ≠ "greedy" → args ≠ "heuristic" →
   @take_action board_2584 tape_std p two_ones = @random_action board_2584 tape_std p two_ones).
Proof.
  apply (@take_action_dispatch board_2584 tape_std). vm_compute. reflexivity.
Defined.

(** The mode word inside a longer argument string does not select the mode. *)
Example take_action_mode_word_inside :
  let p := @unseeded_player tape_std "name=x greedy" in
  @player_ctor tape_std "name=x greedy" = Ok p ∧
  @take_action board_2584 tape_std p two_ones = @random_action board_2584 tape_std p two_ones.
Proof. split; [by vm_compute|reflexivity]. Qed.

(** * Further properties *)

(** ** The configuration string *)

Lemma append_cons c (s1 s2 : string) : String c s1 +:+ s2 = String c (s1 +:+ s2).
Proof. reflexivity. Qed.

Lemma append_empty_r (s : string) : s +:+ "" = s.
Proof. induction s as [|c s IH]; [done|]. by rewrite append_cons, IH. Qed.

Lemma append_assoc (s1 s2 s3 : string) : (s1 +:+ s2) +:+ s3 = s1 +:+ (s2 +:+ s3).
Proof. induction s1 as [|c s1 IH]; [done|]. by rewrite !append_cons, IH. Qed.

Lemma string_forall_app P s1 s2 :
  string_forall P (s1 +:+ s2) ↔ string_forall P s1 ∧ string_forall P s2.
Proof.
  induction s1 as [|c s1 IH]; [cbn; tauto|].
  rewrite append_cons. cbn [string_forall]. rewrite IH. tauto.
Qed.

Lemma extract_wellformed_from s pair :
  no_space pair → Forall is_pair (extract s pair).
Proof.
  revert pair. induction s as [|c s IH]; intros pair Hp; cbn [extract].
  - destruct pair; [constructor|]. constructor; [done|constructor].
  - destruct (isspace c) eqn:Hc.
    + destruct pair; [by apply IH|]. constructor; [done|by apply IH].
    + apply IH. apply string_forall_app. cbn [string_forall]. done.
Qed.

Lemma extract_word w rest pair :
  no_space w → extract (w +:+ rest) pair = extract rest (pair +:+ w).
Proof.
  revert pair. induction w as [|c w IH]; intros pair Hw.
  - by rewrite append_empty_r.
  - destruct Hw as [Hc Hw]. rewrite append_cons. cbn [extract].
    rewrite Hc, IH by done. by rewrite append_assoc.
Qed.

Lemma extract_space rest pair :
  extract (" " +:+ rest) pair =
    match pair with
    | EmptyString => extract rest ""
    | _ => pair :: extract rest ""
    end.
Proof. reflexivity. Qed.

Lemma extract_join_from_empty pairs :
  Forall is_pair pairs → extract (join_pairs pairs) "" = pairs.
Proof.
  induction 1 as [|pair pairs [Hne Hns] _ IH]; cbn [join_pairs]; [done|].
  rewrite extract_word, extract_space by done. change ("" +:+ pair) with pair.
  destruct pair; [done|]. by rewrite IH.
Qed.

(** X1. Every pair the constructor reads from the configuration string is
    not empty and holds no white space, whatever the string. *)
Theorem extract_pairs_wellformed s : Forall is_pair (extract s "").
Proof. by apply extract_wellformed_from. Qed.

(** X2. Pairs written with a space after each are read back as they are, in
    their order. *)
Theorem extract_join_pairs pairs :
  Forall is_pair pairs → extract (join_pairs pairs) "" = pairs.
Proof. apply extract_join_from_empty. Qed.

Lemma index_equals_hit s : String.index 0 "=" (String equals_sign s) = Some 0%nat.
Proof. by destruct s. Qed.

Lemma index_equals_step c s :
  c ≠ equals_sign → String.index 0 "=" (String c s) = S <$> String.index 0 "=" s.
Proof.
  intros Hc. cbn [String.index].
  replace (String.prefix "=" (String c s)) with false.
  - by destruct (String.index 0 "=" s).
  - change "="%string with (String equals_sign ""). cbn [String.prefix].
    destruct (Ascii.ascii_dec equals_sign c); [congruence|done].
Qed.

Lemma index_no_equals s : no_equals s → String.index 0 "=" s = None.
Proof.
  induction s as [|c s IH]; [done|]. intros [Hc Hs].
  rewrite index_equals_step, IH by done. done.
Qed.

Lemma index_key key value :
  no_equals key → String.index 0 "=" (key +:+ "=" +:+ value) = Some (String.length key).
Proof.
  induction key as [|c key IH]; intros Hk.
  - apply index_equals_hit.
  - destruct Hk as [Hc Hk]. rewrite append_cons, index_equals_step, IH by done. done.
Qed.

Lemma substring_prefix (s1 s2 : string) :
  String.substring 0 (String.length s1) (s1 +:+ s2) = s1.
Proof.
  induction s1 as [|c s1 IH]; [by destruct s2|].
  rewrite append_cons. cbn [String.length String.substring]. by rewrite IH.
Qed.

Lemma substring_all (s : string) : String.substring 0 (String.length s) s = s.
Proof. rewrite <- (append_empty_r s) at 2. apply substring_prefix. Qed.

Lemma substring_suffix (s1 s2 : string) (m : nat) :
  String.substring (String.length s1) m (s1 +:+ s2) = String.substring 0 m s2.
Proof.
  induction s1 as [|c s1 IH]; [done|].
  rewrite append_cons. cbn [String.length String.substring]. apply IH.
Qed.

Lemma length_append (s1 s2 : string) :
  String.length (s1 +:+ s2) = (String.length s1 + String.length s2)%nat.
Proof. induction s1 as [|c s1 IH]; [done|]. rewrite append_cons. cbn. by rewrite IH. Qed.

Lemma key_value_of_pair key value :
  no_equals key →
  key_of (key +:+ "=" +:+ value) = key ∧ value_of (key +:+ "=" +:+ value) = value.
Proof.
  intros Hk. unfold key_of, value_of. rewrite index_key by done. split.
  - apply substring_prefix.
  - rewrite <- append_assoc.
    replace (String.length key + 1)%nat with (String.length (key +:+ "="))
      by (rewrite length_append; done).
    rewrite substring_suffix, !length_append.
    replace (String.length key + String.length "=" + String.length value -
             (String.length key + String.length "="))%nat with (String.length value) by lia.
    apply substring_all.
Qed.

Lemma key_value_of_word word :
  no_equals word → key_of word = word ∧ value_of word = word.
Proof. intros Hw. unfold key_of, value_of. by rewrite index_no_equals. Qed.

(** X3. A pair is split at its first ['=']: the key is what precedes it, the
    value all that follows; a pair without ['='] is its own key and its own
    value. *)
Theorem pair_split key value :
  no_equals key →
  (key_of (key +:+ "=" +:+ value) = key ∧ value_of (key +:+ "=" +:+ value) = value) ∧
  (key_of key = key ∧ value_of key = key).
Proof.
  intros Hk. split; [by apply key_value_of_pair|by apply key_value_of_word].
Qed.

Lemma set_pairs_lookup (pairs : list string) (m : gmap string string) key :
  foldl set_pair m pairs !! key =
    match last_value key pairs with
    | Some value => Some value
    | None => m !! key
    end.
Proof.
  revert m. induction pairs as [|pair pairs IH] using rev_ind; intros m; [done|].
  rewrite foldl_snoc. unfold last_value, pairs_with_key, set_pair in *.
  rewrite filter_app, filter_cons, filter_nil.
  destruct (decide (key_of pair = key)) as [<-|Hne].
  - by rewrite lookup_insert_eq, last_snoc.
  - rewrite lookup_insert_ne by done. rewrite app_nil_r. apply IH.
Qed.

Lemma agent_ctor_lookup args key :
  agent_ctor args !! key =
    last_value key ("name=unknown" :: "role=unknown" :: extract args "").
Proof.
  unfold agent_ctor. rewrite extract_agent_prefix, set_pairs_lookup.
  by destruct (last_value _ _).
Qed.

Lemma last_value_cons key dflt pairs :
  last_value key (dflt :: pairs) =
    match last_value key pairs with
    | Some value => Some value
    | None => if decide (key_of dflt = key) then Some (value_of dflt) else None
    end.
Proof.
  unfold last_value, pairs_with_key. rewrite filter_cons.
  destruct (filter _ pairs) as [|p l] eqn:Hf; [by case_decide|].
  destruct (last (p :: l)) eqn:Hl; [|by apply last_None in Hl].
  case_decide; [|by rewrite Hl]. by rewrite last_cons_cons, Hl.
Qed.

Lemma last_value_nil key pairs : pairs_with_key key pairs = [] → last_value key pairs = None.
Proof. intros Hp. unfold last_value. by rewrite Hp. Qed.

(** X4. After construction [property(key)] is the value of the last pair
    with that key among the two defaults and the pairs of [args]; it fails
    with the missing-key exception exactly when no pair has the key. *)
Theorem property_last_pair args key :
  property (agent_ctor args) key =
    match last_value key ("name=unknown" :: "role=unknown" :: extract args "") with
    | Some value => Ok value
    | None => Throw (out_of_range key)
    end.
Proof.
  unfold property, agent_ctor. rewrite extract_agent_prefix, set_pairs_lookup.
  by destruct (last_value _ _).
Qed.

(** X5. [name()] and [role()] never fail after construction, whatever the
    configuration string. *)
Theorem identity_present args :
  ∃ n r, name (agent_ctor args) = Ok n ∧ role (agent_ctor args) = Ok r.
Proof.
  unfold name, role, property. rewrite !agent_ctor_lookup, !last_value_cons.
  destruct (last_value "name" (extract args "")), (last_value "role" (extract args ""));
    by eexists _, _.
Qed.

(** X6. When [args] gives no name and no role, an agent is unknown/unknown,
    the environment random/environment and the player dummy/player. *)
Theorem default_identity args :
  pairs_with_key "name" (extract args "") = [] →
  pairs_with_key "role" (extract args "") = [] →
  (name (agent_ctor args) = Ok "unknown" ∧ role (agent_ctor args) = Ok "unknown") ∧
  (name (agent_ctor ("name=random role=environment " +:+ args)) = Ok "random" ∧
   role (agent_ctor ("name=random role=environment " +:+ args)) = Ok "environment") ∧
  (name (agent_ctor ("name=dummy role=player " +:+ args)) = Ok "dummy" ∧
   role (agent_ctor ("name=dummy role=player " +:+ args)) = Ok "player").
Proof.
  intros Hn%last_value_nil Hr%last_value_nil.
  unfold name, role, property. rewrite !agent_ctor_lookup.
  change (extract ("name=random role=environment " +:+ args) "")
    with ("name=random" :: "role=environment" :: extract args "").
  change (extract ("name=dummy role=player " +:+ args) "")
    with ("name=dummy" :: "role=player" :: extract args "").
  by rewrite !last_value_cons, Hn, Hr.
Qed.

(** X7. [notify("key=value")] makes [property(key)] return the value and
    leaves every other key as it was. *)
Theorem notify_property meta key value :
  no_equals key →
  property (notify meta (key +:+ "=" +:+ value)) key = Ok value ∧
  ∀ key', key' ≠ key →
    property (notify meta (key +:+ "=" +:+ value)) key' = property meta key'.
Proof.
  intros Hk. destruct (key_value_of_pair key value Hk) as [Hkey Hvalue].
  unfold property, notify, set_pair. rewrite Hkey, Hvalue. split.
  - by rewrite lookup_insert_eq.
  - intros key' Hne. by rewrite lookup_insert_ne.
Qed.

(** ** Maxima of a loop *)

Lemma foldl_max_spec {A} (f : A → Z) (l : list A) init :
  let v := foldl (λ best x, Z.max best (f x)) init l in
  init ≤ v ∧ (∀ x, x ∈ l → f x ≤ v) ∧ (v = init ∨ ∃ x, x ∈ l ∧ v = f x).
Proof.
  revert init. induction l as [|x l IH]; intros init; cbn [foldl]; cbv zeta.
  - split_and!; [lia| |by left]. intros x Hx. by apply elem_of_nil in Hx.
  - destruct (IH (Z.max init (f x))) as (Hinit & Hall & Hatt). cbv zeta in *. split_and!.
    + lia.
    + intros y Hy. apply elem_of_cons in Hy as [Hy|Hy]; [subst y; lia|by apply Hall].
    + destruct Hatt as [Hv|(y & Hy & Hv)].
      * destruct (Z.max_spec init (f x)) as [[_ Hm]|[_ Hm]].
        -- right. exists x. split; [left|lia].
        -- left. lia.
      * right. exists y. split; [by right|done].
Qed.

(** ** The largest tile *)

Lemma to_uint32_small z : 0 ≤ z < 2 ^ 31 → to_uint32 z = Z.to_N z.
Proof. intros Hz. unfold to_uint32. rewrite Z.mod_small; [done|lia]. Qed.

Lemma to_int_small n : (n < 2 ^ 31)%N → to_int n = Z.of_N n.
Proof.
  intros Hn. unfold to_int. cbv zeta. rewrite Z.mod_small by lia.
  rewrite decide_True; [done|lia].
Qed.

Lemma maxtile_loop_inv b l :
  small_cells b → Forall (λ i, 0 ≤ i < 16) l →
  maxtile_inv b l (foldl (maxtile_step b) (0, -1) l).
Proof.
  intros Hb Hl. induction l as [|i l IH] using rev_ind.
  - left. split_and!; [done..|]. intros i Hi. by apply elem_of_nil in Hi.
  - apply Forall_app in Hl as [Hl Hi]. apply Forall_inv in Hi.
    specialize (IH Hl). rewrite foldl_snoc.
    destruct (foldl (maxtile_step b) (0, -1) l) as [mt ps]. unfold maxtile_step.
    unfold maxtile_inv in IH |- *. cbn [fst snd] in IH.
    pose proof (Hb i Hi) as Hsmall.
    assert (Hmt : 0 ≤ mt < 2 ^ 31).
    { destruct IH as [(-> & _)|(k & Hk & -> & _)]; cbn [fst snd] in *; [lia|].
      assert (0 ≤ ps < 16) as Hps.
      { eapply (Forall_forall (λ i, 0 ≤ i < 16)); [exact Hl|]. by eapply list_elem_of_lookup_2. }
      pose proof (Hb ps Hps). lia. }
    rewrite to_uint32_small by done. case_decide as Hd.
    + right. exists (length l). cbn [fst snd]. rewrite to_int_small by done.
      split_and!; [by rewrite list_lookup_middle|done|lia| |].
      * intros j i' Hj. destruct (decide (j < length l)%nat) as [Hlt|Hge].
        -- rewrite lookup_app_l in Hj by done.
           destruct IH as [(_ & _ & Hz)|(k & _ & Hm & _ & Hmax & _)]; cbn [fst snd] in *.
           ++ rewrite (Hz i'); [lia|by eapply list_elem_of_lookup_2].
           ++ specialize (Hmax j i' Hj). lia.
        -- apply lookup_lt_Some in Hj as Hlen. rewrite length_app in Hlen. cbn in Hlen.
           assert (j = length l) as -> by lia. rewrite list_lookup_middle in Hj by done.
           by injection Hj as <-.
      * intros j i' Hj Hlt. rewrite lookup_app_l in Hj by done.
        destruct IH as [(_ & _ & Hz)|(k & _ & Hm & _ & Hmax & _)]; cbn [fst snd] in *.
        -- rewrite (Hz i'); [lia|by eapply list_elem_of_lookup_2].
        -- specialize (Hmax j i' Hj). lia.
    + destruct IH as [(Hm & Hp & Hz)|(k & Hk & Hm & Hpos & Hmax & Hfirst)]; cbn [fst snd] in *.
      * left. cbn [fst snd]. split_and!; [done..|].
        intros i' [Hi'|Hi']%elem_of_app; [by apply Hz|].
        apply list_elem_of_singleton in Hi'. subst i'. lia.
      * right. exists k. cbn [fst snd].
        split_and!; [by apply lookup_app_l_Some|done..| |].
        -- intros j i' Hj. destruct (decide (j < length l)%nat) as [Hlt|Hge].
           ++ rewrite lookup_app_l in Hj by done. by eapply Hmax.
           ++ apply lookup_lt_Some in Hj as Hlen. rewrite length_app in Hlen. cbn in Hlen.
              assert (j = length l) as -> by lia. rewrite list_lookup_middle in Hj by done.
              injection Hj as <-. lia.
        -- intros j i' Hj Hlt. apply lookup_lt_Some in Hk as Hklen.
           rewrite lookup_app_l in Hj by lia. by eapply Hfirst.
Qed.

Lemma seqZ_lookup_0 (k : nat) i n : seqZ 0 n !! k = Some i → i = Z.of_nat k ∧ 0 ≤ i < n.
Proof. intros Hk%lookup_seqZ. lia. Qed.


Section further.
Context `{BoardInterface} `{CxxStd}.


(** ** The environment *)

Lemma rndenv_loop_full after positions e :
  Forall (λ pos, board_at after pos ≠ 0%N) positions →
  rndenv_loop after positions e = (NoAction, e).
Proof.
  induction 1 as [|pos positions Hpos _ IH]; cbn [rndenv_loop]; [done|].
  by rewrite decide_True.
Qed.

Lemma rndenv_loop_result after positions e a e' :
  rndenv_loop after positions e = (a, e') →
  (a = NoAction ∧ e' = e) ∨
  (∃ pos tile, a = Place pos tile ∧ pos ∈ positions ∧ board_at after pos = 0%N ∧
               (tile = 1%N ∨ tile = 2%N) ∧ e' = (uniform_int 0 9 e).2).
Proof.
  induction positions as [|pos positions IH]; cbn [rndenv_loop].
  - intros [= <- <-]. by left.
  - case_decide as Hd.
    + intros [Hl|(q & tile & ? & ? & ? & ? & ?)]%IH; [by left|right].
      exists q, tile. split_and!; [done|by right|done..].
    + destruct (uniform_int 0 9 e) as [draw e2]. intros [= <- <-]. right.
      eexists pos, _. split_and!; [done|by left| |by case_decide; auto|done].
      destruct (decide (board_at after pos = 0%N)); [done|]. by destruct Hd.
Qed.

(** X9. On a board without an empty cell the environment returns the null
    action and draws no tile: the engine has only made the shuffle. *)
Theorem rndenv_full_board env after :
  shuffle_contract → space env ≡ₚ seqZ 0 16 → no_empty_cell after →
  rndenv_take_action env after =
    (NoAction,
     Rndenv (RandomAgent (meta (env_base env)) (shuffle (space env) (rng (env_base env))).2)
            (shuffle (space env) (rng (env_base env))).1).
Proof.
  intros Hsh Hsp Hfull. unfold rndenv_take_action.
  pose proof (Hsh (space env) (rng (env_base env))) as Hperm.
  destruct (shuffle (space env) (rng (env_base env))) as [space' e]. cbn [fst snd] in *.
  rewrite rndenv_loop_full; [done|].
  apply Forall_forall. intros pos Hpos. apply Hfull.
  rewrite Hperm, Hsp in Hpos. apply elem_of_seqZ in Hpos. lia.
Qed.

(** X10. [rndenv::take_action] keeps [space] a permutation of 0..15 and
    [meta] as it is, and it returns the null action or the placement of tile
    1 or 2 on a position 0..15 that is empty on the board. *)
Theorem rndenv_take_action_invariant env after :
  shuffle_contract → space env ≡ₚ seqZ 0 16 →
  space (rndenv_take_action env after).2 ≡ₚ seqZ 0 16 ∧
  meta (env_base (rndenv_take_action env after).2) = meta (env_base env) ∧
  ((rndenv_take_action env after).1 = NoAction ∨
   ∃ pos tile, (rndenv_take_action env after).1 = Place pos tile ∧
               0 ≤ pos < 16 ∧ board_at after pos = 0%N ∧ (tile = 1%N ∨ tile = 2%N)).
Proof.
  intros Hsh Hsp. unfold rndenv_take_action.
  pose proof (Hsh (space env) (rng (env_base env))) as Hperm.
  destruct (shuffle (space env) (rng (env_base env))) as [space' e]. cbn [fst] in Hperm.
  destruct (rndenv_loop after space' e) as [a e'] eqn:Hloop. simpl.
  split; [by rewrite Hperm|split; [done|]].
  apply rndenv_loop_result in Hloop
    as [[-> _]|(pos & tile & -> & Hin & He & Ht & _)]; [by left|right].
  rewrite Hperm, Hsp in Hin. apply elem_of_seqZ in Hin.
  exists pos, tile. split; [done|]. split; [lia|done].
Qed.

(** ** The selectors and the search *)

Lemma random_action_loop_find b ops :
  random_action_loop b ops =
    match list_find (legal b) ops with
    | Some (_, op) => Slide op
    | None => NoAction
    end.
Proof.
  induction ops as [|op ops IH]; cbn [random_action_loop list_find]; [done|].
  destruct (decide (legal b op)) as [Hl|Hl].
  - by rewrite decide_True.
  - rewrite decide_False by done. rewrite IH. by destruct (list_find _ ops) as [[]|].
Qed.

Lemma heuristic_step_eq p b st op :
  heuristic_step p b st op =
    if decide (legal b op ∧ st.1 ≤ heuristic_score p b op)
    then (heuristic_score p b op, op)
    else st.
Proof.
  destruct st as [m best]. unfold heuristic_step.
  case_decide as Hd; unfold heuristic_score, legal in Hd |- *;
    destruct (slide b op) as [after reward]; cbn [fst snd] in *;
    repeat case_decide; try done; tauto.
Qed.

Lemma heuristic_score_nonneg p b op :
  reward_contract → legal b op → 0 ≤ heuristic_score p b op.
Proof.
  intros Hc Hl. unfold heuristic_score, legal in *.
  pose proof (tree_search_nonneg p (slide b op).1 1 ltac:(lia)).
  destruct (Hc b op); [done|lia].
Qed.

Lemma heuristic_loop_last_max p b ops :
  reward_contract → heuristic_inv p b ops (foldl (heuristic_step p b) (0, -1) ops).
Proof.
  intros Hc. induction ops as [|op ops IH] using rev_ind.
  - left. cbn. split_and!; [done..|]. intros op Hop. by apply elem_of_nil in Hop.
  - rewrite foldl_snoc, heuristic_step_eq.
    destruct (foldl (heuristic_step p b) (0, -1) ops) as [m best].
    cbn [fst snd] in *. case_decide as Hd.
    + right. exists (length ops). cbn [fst snd]. destruct Hd as [Hl Hm].
      split_and!; [by rewrite list_lookup_middle|done..|].
      intros j op' Hj Hop'.
      destruct (decide (j < length ops)%nat) as [Hlt|Hge].
      * rewrite lookup_app_l in Hj by done.
        destruct IH as [(_ & _ & Hno)|(i & _ & _ & _ & Hmax)].
        -- exfalso. eapply Hno; [|done]. by eapply list_elem_of_lookup_2.
        -- cbn [fst snd] in Hmax. destruct (Hmax j op' Hj Hop') as [Hle _].
           split; [lia|intros; lia].
      * apply lookup_lt_Some in Hj as Hlen. rewrite length_app in Hlen. cbn in Hlen.
        assert (j = length ops) as -> by lia. rewrite list_lookup_middle in Hj by done.
        injection Hj as <-. split; [lia|done].
    + destruct IH as [(Hb & Hm & Hno)|(i & Hi & Hl & Hm & Hmax)]; cbn [fst snd] in *.
      * left. cbn [fst snd]. split_and!; [done..|].
        intros op' [Hop'|Hop']%elem_of_app; [by apply Hno|].
        apply list_elem_of_singleton in Hop'. subst op'.
        intros Hl. apply Hd. split; [done|].
        pose proof (heuristic_score_nonneg p b op Hc Hl). lia.
      * right. exists i. cbn [fst snd]. split_and!; [by apply lookup_app_l_Some|done..|].
        intros j op' Hj Hop'.
        destruct (decide (j < length ops)%nat) as [Hlt|Hge].
        -- rewrite lookup_app_l in Hj by done. by apply Hmax.
        -- apply lookup_lt_Some in Hj as Hlen. rewrite length_app in Hlen. cbn in Hlen.
           assert (j = length ops) as -> by lia. rewrite list_lookup_middle in Hj by done.
           injection Hj as <-.
           assert (heuristic_score p b op < m)
             by (destruct (decide (m ≤ heuristic_score p b op)); [exfalso; by apply Hd|lia]).
           split; [lia|intros; lia].
Qed.

(** X13. With the opcodes in their order 0..3 and a legal direction, the
    heuristic selector returns the legal direction of largest reward plus
    search of depth 1, the last one among those of that score. *)
Theorem heuristic_action_spec p b :
  reward_contract → opcode p = directions →
  (∃ op, op ∈ directions ∧ legal b op) →
  ∃ best, heuristic_action p b = Slide best ∧ best ∈ directions ∧ legal b best ∧
    ∀ op, op ∈ directions → legal b op →
      heuristic_score p b op ≤ heuristic_score p b best ∧
      (heuristic_score p b op = heuristic_score p b best → op ≤ best).
Proof.
  intros Hc Hops (op0 & Hop0 & Hl0). unfold heuristic_action. rewrite Hops.
  pose proof (heuristic_loop_last_max p b directions Hc) as Hinv.
  destruct (foldl (heuristic_step p b) (0, -1) directions) as [m best].
  unfold action_of_best.
  destruct Hinv as [(Hb & Hm & Hno)|(i & Hi & Hl & Hm & Hmax)]; cbn [fst snd] in *.
  - by destruct (Hno op0 Hop0).
  - assert (best ∈ directions) as Hin by (by eapply list_elem_of_lookup_2).
    rewrite decide_True by (by apply directions_not_sentinel).
    exists best. split_and!; [done..|].
    intros op [j Hj]%list_elem_of_lookup Hlop.
    destruct (Hmax j op Hj Hlop) as [Hle Hlast]. rewrite <- Hm. split; [done|].
    intros Heq. apply Hlast in Heq.
    apply directions_lookup in Hj, Hi. lia.
Qed.

(** X14. In whatever order the opcodes are, a direction the greedy
    selector returns is legal and no legal direction has a larger reward. *)
Theorem greedy_action_any_order p b best :
  reward_contract → opcode p ≡ₚ directions →
  greedy_action p b = Slide best →
  best ∈ directions ∧ legal b best ∧
  ∀ op, op ∈ directions → legal b op → (slide b op).2 ≤ (slide b best).2.
Proof.
  intros Hc Hp. unfold greedy_action.
  pose proof (greedy_loop_inv b (opcode p) Hc) as Hinv.
  destruct (foldl (greedy_step b) (0, -1) (opcode p)) as [m best'].
  unfold action_of_best. case_decide as Hd; [|done]. intros [= ->].
  destruct Hinv as [(Hb & _)|(i & Hi & Hl & Hm & Hmax)]; cbn [fst snd] in *; [done|].
  split_and!; [rewrite <- Hp; by eapply list_elem_of_lookup_2|done|].
  intros op Hop Hlop. rewrite <- Hp in Hop. apply list_elem_of_lookup in Hop as [j Hj].
  destruct (Hmax j op Hj Hlop) as [Hle _]. by rewrite <- Hm.
Qed.

(** X11. The random selector returns the first legal direction of the
    shuffled opcodes, the null action if there is none, and leaves the
    player with the shuffled opcodes and the advanced engine. *)
Theorem random_action_first_legal p b :
  random_action p b =
    (match list_find (legal b) (shuffle (opcode p) (rng (base p))).1 with
     | Some (_, op) => Slide op
     | None => NoAction
     end,
     Player (RandomAgent (meta (base p)) (shuffle (opcode p) (rng (base p))).2)
            (shuffle (opcode p) (rng (base p))).1 (tuples p) (play_type p)).
Proof.
  unfold random_action. destruct (shuffle _ _) as [opcode' e]. cbn [fst snd].
  by rewrite random_action_loop_find.
Qed.

Lemma take_action_state p b :
  shuffle_contract →
  play_type (take_action p b).2 = play_type p ∧
  tuples (take_action p b).2 = tuples p ∧
  meta (base (take_action p b).2) = meta (base p) ∧
  opcode (take_action p b).2 ≡ₚ opcode p ∧
  (play_type p = "greedy" ∨ play_type p = "heuristic" → (take_action p b).2 = p).
Proof.
  intros Hsh. unfold take_action, random_action.
  pose proof (Hsh (opcode p) (rng (base p))) as Hs.
  destruct (shuffle _ _) as [opcode' e]. cbn [fst] in Hs.
  repeat case_decide; cbn; split_and!; try done; intros [?|?]; congruence.
Qed.

(** X12. Through any run of [take_action] calls a constructed player keeps
    its mode, its tuples and its [meta], and its opcodes stay a permutation
    of 0..3; in greedy or heuristic mode the player does not change at all. *)
Theorem play_invariant args p boards :
  shuffle_contract → player_ctor args = Ok p →
  play_type (play p boards) = args ∧
  tuples (play p boards) = [[0; 1; 2; 3]] ∧
  meta (base (play p boards)) = meta (base p) ∧
  opcode (play p boards) ≡ₚ directions ∧
  (args = "greedy" ∨ args = "heuristic" → play p boards = p).
Proof.
  intros Hsh (Hpt & Hop & Htu)%player_ctor_fields. unfold play.
  induction boards as [|b boards IH] using rev_ind.
  - cbn. split_and!; [done..|by rewrite Hop|done].
  - rewrite foldl_snoc. destruct IH as (IH1 & IH2 & IH3 & IH4 & IH5).
    destruct (take_action_state (foldl (λ p before, (take_action p before).2) p boards) b Hsh)
      as (H1 & H2 & H3 & H4 & H5).
    split_and!; [congruence..| by rewrite H4 |].
    intros Hmode. rewrite H5 by (rewrite IH1; done). by apply IH5.
Qed.
(** X15. For a depth of at least 1 the search returns the maximum of 0 and
    of the branch scores of the opcodes, a legal branch scoring twice its
    reward plus the deeper search and an illegal one -1. *)
Theorem tree_search_is_maximum p game d :
  0 < d →
  0 ≤ (tree_search p game d).1 ∧
  (∀ op, op ∈ opcode p →
     branch_score_as_computed p game d op ≤ (tree_search p game d).1) ∧
  ((tree_search p game d).1 = 0 ∨
   ∃ op, op ∈ opcode p ∧ (tree_search p game d).1 = branch_score_as_computed p game d op).
Proof.
  intros Hd. rewrite tree_search_as_computed by done.
  apply (foldl_max_spec (branch_score_as_computed p game d)).
Qed.

(** X16. For a depth of at least 1 the search returns 0 on a board on
    which no direction is legal. *)
Theorem tree_search_no_legal p game d :
  0 < d → (∀ op, op ∈ opcode p → ¬ legal game op) → (tree_search p game d).1 = 0.
Proof.
  intros Hd Hno. rewrite tree_search_as_computed by done.
  destruct (foldl_max_spec (branch_score_as_computed p game d) (opcode p) 0)
    as (Hge & _ & [Hv|(op & Hop & Hv)]); [done|].
  cbv zeta in *. rewrite Hv in *. unfold branch_score_as_computed in *.
  specialize (Hno op Hop). unfold legal in Hno.
  destruct (slide game op) as [after reward]. cbn [snd] in Hno.
  case_decide; [done|lia].
Qed.

(** X17. [tree_search] hands its board argument back as it received it, at
    every depth. *)
Theorem tree_search_keeps_game p game d : (tree_search p game d).2 = game.
Proof.
  destruct (Z_le_gt_dec d 0) as [Hd|Hd].
  - rewrite tree_search_leaf by done. unfold evaluate_board.
    pose proof (tuples_loop_board (tuples p) 0 game) as Hb.
    by destruct (foldl _ _ _).
  - by rewrite tree_search_node by lia.
Qed.

Lemma evaluate_board_tuples p q b : tuples p = tuples q → evaluate_board p b = evaluate_board q b.
Proof. intros Ht. unfold evaluate_board. by rewrite Ht. Qed.

Lemma tree_search_opcode_order_nat n : ∀ p q game d,
  Z.to_nat d = n → opcode p ≡ₚ opcode q → tuples p = tuples q →
  (tree_search p game d).1 = (tree_search q game d).1.
Proof.
  induction n as [n IH] using lt_wf_ind. intros p q game d Hn Hop Ht.
  destruct (Z_le_gt_dec d 0) as [Hd|Hd].
  - rewrite !tree_search_leaf by done. by rewrite (evaluate_board_tuples p q).
  - assert (Hb : ∀ op, branch_score_as_computed p game d op =
                       branch_score_as_computed q game d op).
    { intros op. unfold branch_score_as_computed. destruct (slide game op) as [after reward].
      case_decide; [|done]. f_equal. apply (IH (Z.to_nat (d - 1))); [lia|done..]. }
    rewrite !tree_search_as_computed by lia.
    destruct (foldl_max_spec (branch_score_as_computed p game d) (opcode p) 0)
      as (Hp0 & Hpall & Hpatt).
    destruct (foldl_max_spec (branch_score_as_computed q game d) (opcode q) 0)
      as (Hq0 & Hqall & Hqatt).
    cbv zeta in *. apply Z.le_antisymm.
    + destruct Hpatt as [->|(op & Hin & ->)]; [done|]. rewrite Hb. apply Hqall. by rewrite <- Hop.
    + destruct Hqatt as [->|(op & Hin & ->)]; [done|]. rewrite <- Hb. apply Hpall. by rewrite Hop.
Qed.

(** X18. The search does not depend on the order of the opcodes: players
    with the same tuples and the same opcodes up to order search the same
    score. *)
Theorem tree_search_opcode_order p q game d :
  opcode p ≡ₚ opcode q → tuples p = tuples q →
  (tree_search p game d).1 = (tree_search q game d).1.
Proof. by apply (tree_search_opcode_order_nat (Z.to_nat d)). Qed.

(** ** The evaluation *)

Lemma tuples_loop_score (ts : list (list Z)) score b :
  (foldl (λ '(score, after) tuple,
            foldl (λ '(score, after) (_ : Z),
                     (score + cal_decreasing_score tuple after, rotate_left after))
                  (score, after) (seqZ 0 4))
         (score, b) ts).1 =
  foldl (λ score tuple, score + rotations_score tuple b) score ts.
Proof.
  revert score. induction ts as [|t ts IH]; intros score; [done|].
  cbn [foldl]. rewrite rotation_loop, IH. unfold rotations_score. f_equal. lia.
Qed.

Lemma evaluate_board_score p b :
  (evaluate_board p b).1 =
    foldl (λ score tuple, score + rotations_score tuple b) 0 (tuples p) + cal_space_score b.
Proof.
  unfold evaluate_board.
  pose proof (tuples_loop_score (tuples p) 0 b) as Hs.
  pose proof (tuples_loop_board (tuples p) 0 b) as Hb.
  destruct (foldl _ (0, b) (tuples p)) as [score after]. cbn [fst snd] in *. by subst.
Qed.

Lemma rotations_score_rotate tuple b :
  rotations_score tuple (rotate_left b) = rotations_score tuple b.
Proof. unfold rotations_score. rewrite rotate_left_4. lia. Qed.

Lemma cal_space_score_rotate b : cal_space_score (rotate_left b) = cal_space_score b.
Proof.
  rewrite !cal_space_score_eq.
  change (seqZ 0 16) with [0; 1; 2; 3; 4; 5; 6; 7; 8; 9; 10; 11; 12; 13; 14; 15].
  cbn [foldl]. unfold space_count.
  change (board_at (rotate_left b) 0) with (board_at b 3).
  change (board_at (rotate_left b) 1) with (board_at b 7).
  change (board_at (rotate_left b) 2) with (board_at b 11).
  change (board_at (rotate_left b) 3) with (board_at b 15).
  change (board_at (rotate_left b) 4) with (board_at b 2).
  change (board_at (rotate_left b) 5) with (board_at b 6).
  change (board_at (rotate_left b) 6) with (board_at b 10).
  change (board_at (rotate_left b) 7) with (board_at b 14).
  change (board_at (rotate_left b) 8) with (board_at b 1).
  change (board_at (rotate_left b) 9) with (board_at b 5).
  change (board_at (rotate_left b) 10) with (board_at b 9).
  change (board_at (rotate_left b) 11) with (board_at b 13).
  change (board_at (rotate_left b) 12) with (board_at b 0).
  change (board_at (rotate_left b) 13) with (board_at b 4).
  change (board_at (rotate_left b) 14) with (board_at b 8).
  change (board_at (rotate_left b) 15) with (board_at b 12).
  lia.
Qed.

(** X19. The evaluation of a board and of the board rotated left are the
    same. *)
Theorem evaluate_board_rotate p b :
  (evaluate_board p (rotate_left b)).1 = (evaluate_board p b).1.
Proof.
  rewrite !evaluate_board_score, cal_space_score_rotate. f_equal.
  generalize 0. induction (tuples p) as [|t ts IH]; intros score; [done|].
  cbn [foldl]. by rewrite rotations_score_rotate, IH.
Qed.

Lemma space_count_bounds b (l : list Z) a :
  a ≤ foldl (space_count b) a l ≤ a + Z.of_nat (length l).
Proof.
  revert a. induction l as [|i l IH]; intros a; cbn [foldl length]; [lia|].
  specialize (IH (space_count b a i)). unfold space_count in *. case_decide; lia.
Qed.

Lemma space_count_filter b (l : list Z) a :
  foldl (space_count b) a l = a + Z.of_nat (length (filter (empty_at b) l)).
Proof.
  revert a. induction l as [|i l IH]; intros a; cbn [foldl]; [cbn; lia|].
  rewrite IH, filter_cons. unfold space_count, empty_at.
  destruct (decide (board_at b i = 0%N)); cbn [length]; lia.
Qed.

(** X20. The space score is 5 times the number of empty cells, hence
    between 0 and 80. *)
Theorem cal_space_score_count b :
  cal_space_score b = 5 * Z.of_nat (length (filter (empty_at b) (seqZ 0 16))) ∧
  0 ≤ cal_space_score b ≤ 80.
Proof.
  rewrite cal_space_score_eq. split.
  - rewrite space_count_filter. lia.
  - pose proof (space_count_bounds b (seqZ 0 16) 0) as Hb.
    change (length (seqZ 0 16)) with 16%nat in Hb. lia.
Qed.

Lemma run_score_nonneg r : (∀ level, 0 ≤ map_to_fibonacci level) → 0 ≤ run_score r.
Proof.
  intros Hf. unfold run_score. case_decide; [|done].
  pose proof (Hf (c1 r)). pose proof (Hf (c2 r)). pose proof (Hf (c3 r)). lia.
Qed.

Lemma cal_decreasing_loop_nonneg tuple b indices dec inc score :
  (∀ level, 0 ≤ map_to_fibonacci level) → 0 ≤ score →
  0 ≤ cal_decreasing_loop tuple b indices dec inc score.
Proof.
  intros Hf. revert dec inc score.
  induction indices as [|i indices IH]; intros dec inc score Hs; cbn [cal_decreasing_loop].
  - by destruct (dec || inc).
  - pose proof (Hf (board_at b (tuple_at tuple i))).
    repeat case_decide; [done|apply IH; lia..].
Qed.

(** X21. When no level has a negative weight the evaluation is at least the
    space score, hence not negative. *)
Theorem evaluate_board_nonneg p b :
  (∀ level, 0 ≤ map_to_fibonacci level) →
  0 ≤ cal_space_score b ≤ (evaluate_board p b).1.
Proof.
  intros Hf. rewrite evaluate_board_score.
  pose proof (space_count_bounds b (seqZ 0 16) 0) as Hb. rewrite cal_space_score_eq.
  cut (∀ score, 0 ≤ score →
         0 ≤ foldl (λ score tuple, score + rotations_score tuple b) score (tuples p)).
  { intros Hcut. specialize (Hcut 0 ltac:(lia)). lia. }
  induction (tuples p) as [|t ts IH]; intros score Hs; [done|].
  cbn [foldl]. apply IH. unfold rotations_score, cal_decreasing_score.
  pose proof (λ b', cal_decreasing_loop_nonneg t b'
    (seqZ 1 (Z.of_nat (length t) - 1)) true true 0 Hf ltac:(lia)) as Hn.
  pose proof (Hn b). pose proof (Hn (rotate_left b)).
  pose proof (Hn (rotate_left (rotate_left b))).
  pose proof (Hn (rotate_left (rotate_left (rotate_left b)))). lia.
Qed.

(** X22. The score of a line of four positions is the sum of the weights of
    its second, third and fourth cell when the four levels are strictly
    increasing or strictly decreasing, and 0 otherwise; the weight of the
    first cell never counts. *)
Theorem cal_decreasing_score_line t0 t1 t2 t3 b :
  cal_decreasing_score [t0; t1; t2; t3] b =
    run_score (Row (board_at b t0) (board_at b t1) (board_at b t2) (board_at b t3)).
Proof.
  unfold cal_decreasing_score, run_score.
  change (seqZ 1 (Z.of_nat (length [t0; t1; t2; t3]) - 1)) with [1; 2; 3].
  cbn [cal_decreasing_loop c0 c1 c2 c3].
  change (tuple_at [t0; t1; t2; t3] (1 - 1)) with t0.
  change (tuple_at [t0; t1; t2; t3] 1) with t1.
  change (tuple_at [t0; t1; t2; t3] (2 - 1)) with t1.
  change (tuple_at [t0; t1; t2; t3] 2) with t2.
  change (tuple_at [t0; t1; t2; t3] (3 - 1)) with t2.
  change (tuple_at [t0; t1; t2; t3] 3) with t3.
  repeat case_decide; simpl; lia.
Qed.

(** ** The object store *)

(** X24. On the store [tree_search] returns the score of the value-level
    search and leaves the board it was given, and every other board alive at
    the call, as it was. *)
Theorem tree_search_ref_frame p d h r b :
  h !! r = Some b →
  ∃ h', tree_search_ref p r d h = Some ((tree_search p b d).1, h') ∧
        h' !! r = Some b ∧
        ∀ r' b', h !! r' = Some b' → h' !! r' = Some b'.
Proof.
  intros Hr. destruct (tree_search_ref_Some p d h r b Hr) as [extra He].
  exists (h ++ extra). split_and!; [done|by apply lookup_app_l_Some|].
  intros r' b' Hr'. by apply lookup_app_l_Some.
Qed.

(** X25. On the store [evaluate_board] returns the value-level score and
    leaves the whole store as it was: the four rotations in place undo one
    another and nothing else is written. *)
Theorem evaluate_board_ref_restores_store p h r b :
  h !! r = Some b → evaluate_board_ref p r h = Some ((evaluate_board p b).1, h).
Proof. apply evaluate_board_ref_Some. Qed.

End further.

(** ** Examples of the further properties *)

(** X2 on a configuration of two pairs. *)
Lemma extract_join_pairs_witness :
  extract (join_pairs ["name=x"; "seed=3"]) "" = ["name=x"; "seed=3"].
Proof.
  apply extract_join_pairs.
  repeat constructor; vm_compute; discriminate.
Defined.

(** X3 on the key seed and a value that holds a ['=']. *)
Lemma pair_split_witness :
  (key_of ("seed" +:+ "=" +:+ "1=2") = "seed" ∧ value_of ("seed" +:+ "=" +:+ "1=2") = "1=2") ∧
  (key_of "seed" = "seed" ∧ value_of "seed" = "seed").
Proof.
  apply pair_split. unfold no_equals. cbn [string_forall].
  repeat split; vm_compute; discriminate.
Defined.

(** X6 on the configuration of a greedy player. *)
Lemma default_identity_witness :
  (name (agent_ctor "greedy") = Ok "unknown" ∧ role (agent_ctor "greedy") = Ok "unknown") ∧
  (name (agent_ctor ("name=random role=environment " +:+ "greedy")) = Ok "random" ∧
   role (agent_ctor ("name=random role=environment " +:+ "greedy")) = Ok "environment") ∧
  (name (agent_ctor ("name=dummy role=player " +:+ "greedy")) = Ok "dummy" ∧
   role (agent_ctor ("name=dummy role=player " +:+ "greedy")) = Ok "player").
Proof. apply default_identity; reflexivity. Defined.

(** X7 on an empty [meta]. *)
Lemma notify_property_witness :
  property (notify ∅ ("step" +:+ "=" +:+ "7")) "step" = Ok "7" ∧
  ∀ key', key' ≠ "step" →
    property (notify ∅ ("step" +:+ "=" +:+ "7")) key' = property ∅ key'.
Proof.
  apply notify_property. unfold no_equals. cbn [string_forall].
  repeat split; vm_compute; discriminate.
Defined.


Example seed_last_pair_value :
  @random_agent_ctor tape_std "seed=7 seed=12" =
    Ok (@RandomAgent tape_std (agent_ctor "seed=7 seed=12") [12]).
Proof. by vm_compute. Qed.

Example seed_not_a_number :
  @random_agent_ctor tape_std "seed=abc" = Throw (invalid_argument "abc").
Proof. by vm_compute. Qed.

(** X9 on a full board. *)
Lemma rndenv_full_board_witness :
  let env := tape_rndenv [5; 13] in
  rndenv_take_action env scrambled =
    (NoAction,
     Rndenv (RandomAgent (meta (env_base env))
                         (@shuffle tape_std (space env) (rng (env_base env))).2)
            (@shuffle tape_std (space env) (rng (env_base env))).1).
Proof.
  apply (@rndenv_full_board tape_std);
    [apply tape_shuffle_contract|reflexivity|].
  intros i Hi. each_position Hi; vm_compute; discriminate.
Defined.

(** X10 on the board with two level-1 tiles. *)
Lemma rndenv_take_action_invariant_witness :
  let env := tape_rndenv [5; 13] in
  space (rndenv_take_action env two_ones).2 ≡ₚ seqZ 0 16 ∧
  meta (env_base (rndenv_take_action env two_ones).2) = meta (env_base env) ∧
  ((rndenv_take_action env two_ones).1 = NoAction ∨
   ∃ pos tile, (rndenv_take_action env two_ones).1 = Place pos tile ∧
               0 ≤ pos < 16 ∧ board_at two_ones pos = 0%N ∧ (tile = 1%N ∨ tile = 2%N)).
Proof.
  apply (@rndenv_take_action_invariant tape_std);
    [apply tape_shuffle_contract|reflexivity].
Defined.

(** X12 on a random player and two boards. *)
Lemma play_invariant_witness :
  let p := @unseeded_player tape_std "" in
  let boards := [two_ones; scrambled] in
  play_type (@play board_2584 tape_std p boards) = "" ∧
  tuples (@play board_2584 tape_std p boards) = [[0; 1; 2; 3]] ∧
  meta (base (@play board_2584 tape_std p boards)) = meta (base p) ∧
  opcode (@play board_2584 tape_std p boards) ≡ₚ directions ∧
  ("" = "greedy" ∨ "" = "heuristic" → @play board_2584 tape_std p boards = p).
Proof.
  apply (@play_invariant board_2584 tape_std);
    [apply tape_shuffle_contract|by vm_compute].
Defined.

(** X13 on the board with two level-1 tiles. *)
Lemma heuristic_action_spec_witness :
  let p := @unseeded_player tape_std "heuristic" in
  ∃ best, @heuristic_action board_2584 tape_std p two_ones = Slide best ∧
    best ∈ directions ∧ @legal board_2584 two_ones best ∧
    ∀ op, op ∈ directions → @legal board_2584 two_ones op →
      @heuristic_score board_2584 tape_std p two_ones op ≤
        @heuristic_score board_2584 tape_std p two_ones best ∧
      (@heuristic_score board_2584 tape_std p two_ones op =
         @heuristic_score board_2584 tape_std p two_ones best → op ≤ best).
Proof.
  apply (@heuristic_action_spec board_2584 tape_std);
    [apply board_2584_reward_contract|reflexivity|].
  exists 1. split; [by apply list_elem_of_In; right; left|vm_compute; discriminate].
Defined.

(** X14 on a player whose opcodes are in the order 3, 2, 1, 0. *)
Lemma greedy_action_any_order_witness :
  1 ∈ directions ∧ @legal board_2584 two_ones 1 ∧
  ∀ op, op ∈ directions → @legal board_2584 two_ones op →
    (@slide board_2584 two_ones op).2 ≤ (@slide board_2584 two_ones 1).2.
Proof.
  apply (@greedy_action_any_order board_2584 tape_std reversed_player);
    [apply board_2584_reward_contract| |reflexivity].
  change (opcode reversed_player) with (reverse directions). apply reverse_Permutation.
Defined.

(** X15, X16 and X18 at depth 1. *)
Lemma tree_search_is_maximum_witness :
  let p := @unseeded_player tape_std "heuristic" in
  0 ≤ (@tree_search board_2584 tape_std p two_ones 1).1 ∧
  (∀ op, op ∈ opcode p →
     @branch_score_as_computed board_2584 tape_std p two_ones 1 op ≤
       (@tree_search board_2584 tape_std p two_ones 1).1) ∧
  ((@tree_search board_2584 tape_std p two_ones 1).1 = 0 ∨
   ∃ op, op ∈ opcode p ∧
     (@tree_search board_2584 tape_std p two_ones 1).1 =
       @branch_score_as_computed board_2584 tape_std p two_ones 1 op).
Proof. apply (@tree_search_is_maximum board_2584 tape_std). lia. Defined.

Lemma tree_search_no_legal_witness :
  (@tree_search board_2584 tape_std (@unseeded_player tape_std "heuristic") stuck 1).1 = 0.
Proof.
  apply (@tree_search_no_legal board_2584 tape_std); [lia|].
  intros op Hop. apply list_elem_of_In in Hop. cbn in Hop.
  destruct Hop as [<-|[<-|[<-|[<-|[]]]]]; vm_compute; intros Hl; by apply Hl.
Defined.

Lemma tree_search_opcode_order_witness :
  (@tree_search board_2584 tape_std (@unseeded_player tape_std "") two_ones 2).1 =
  (@tree_search board_2584 tape_std reversed_player two_ones 2).1.
Proof.
  apply (@tree_search_opcode_order board_2584 tape_std); [|reflexivity].
  change (opcode reversed_player) with (reverse directions).
  symmetry. apply reverse_Permutation.
Defined.

(** X21 with the Fibonacci weights. *)
Lemma evaluate_board_nonneg_witness :
  0 ≤ cal_space_score two_ones ≤
    (@evaluate_board board_2584 tape_std (@unseeded_player tape_std "heuristic") two_ones).1.
Proof. apply (@evaluate_board_nonneg board_2584 tape_std). apply fibonacci_nonneg. Defined.


(** X24 and X25 on a store holding one board. *)
Lemma tree_search_ref_frame_witness :
  let p := @unseeded_player tape_std "heuristic" in
  ∃ h', @tree_search_ref board_2584 tape_std p 0%nat 1 [two_ones] =
          Some ((@tree_search board_2584 tape_std p two_ones 1).1, h') ∧
        h' !! 0%nat = Some two_ones ∧
        ∀ r' b', [two_ones] !! r' = Some b' → h' !! r' = Some b'.
Proof. apply (@tree_search_ref_frame board_2584 tape_std). reflexivity. Defined.

Lemma evaluate_board_ref_restores_store_witness :
  let p := @unseeded_player tape_std "heuristic" in
  @evaluate_board_ref board_2584 tape_std p 0%nat [two_ones] =
    Some ((@evaluate_board board_2584 tape_std p two_ones).1, [two_ones]).
Proof. apply (@evaluate_board_ref_restores_store board_2584 tape_std). reflexivity. Defined.
